(** * GPUParallel: a worker pool with fixed (worker_id, gpu_id) identities

    Shallow embedding of [gpuparallel/gpuparallel.py].  The coordinator
    (main process) and the pool workers are small-step state machines over a
    shared [world]; a schedule picks which of the enabled actors moves next.
    Every observable action (log records, invocations of [init_fn] and of
    tasks, pool life-cycle calls) is appended to a global [trace]. *)

From Stdlib Require Import ZArith Lia.
From stdpp Require Import base list strings.

(** ** Python values, exceptions and callables *)

Inductive value :=
| VNone
| VInt (z : Z)
| VStr (s : string)
| VTuple (a b : value).

(** [except Exception] catches instances of [Exception] only; [SystemExit],
    [KeyboardInterrupt] and [GeneratorExit] derive from [BaseException]
    directly and pass through such a handler. *)
Inductive pyexc :=
| Exc (name : string)
| BaseExc (name : string).

Definition is_Exception (e : pyexc) : bool :=
  match e with
  | Exc _ => true
  | BaseExc _ => false
  end.

Inductive outcome (A : Type) :=
| Ret (a : A)
| Raise (e : pyexc).
Arguments Ret {A} a.
Arguments Raise {A} e.

(** A task is called as [task(worker_id=..., gpu_id=...)]. *)
Definition task := Z → Z → outcome value.
Definition initfn := Z → Z → outcome unit.

(** ** Observable events *)

Inductive logrecord :=
| LogWorkerInitialized (worker_id gpu_id : Z)   (* log.debug, _init_worker *)
| LogTraceback (e : pyexc)                      (* log.error, _run_task *)
| LogDebugModeInit                              (* log.warning, __init__ *)
| LogDebugModeCall                              (* log.warning, _call_sync *)
| LogSubmitted (n_tasks : nat)                  (* log.debug, _call_async *)
| LogAllReceived.                               (* log.debug, _call_async *)

Inductive event :=
| EvLog (r : logrecord)
| EvClaim (worker_id gpu_id : Z)        (* gpu_queue.get() returned this pair *)
| EvInitFn (worker_id gpu_id : Z)       (* init_fn(worker_id=, gpu_id=) *)
| EvTask (t : task) (worker_id gpu_id : Z)  (* task(worker_id=, gpu_id=) *)
| EvPoolCreate (processes : Z)          (* Pool(processes=...) *)
| EvPoolClose                           (* pool.close() *)
| EvPoolJoin                            (* pool.join() returned *)
| EvPbarOpen (total : nat)              (* tqdm(total=n_tasks) / tqdm(tasks) *)
| EvPbarUpdate                          (* pbar.update(1) *)
| EvPbarClose.                          (* end of the with-block *)

(** ** Shared state: the two manager queues and the pool *)

(** The argument tuple of [pool.apply_async(_run_task, (task, result_queue,
    ignore_errors))]; the queue is the one of the [world]. *)
Record job := Job { job_func : task; job_ignore_errors : bool }.

(** A pool process: started and about to run the initializer; waiting for a
    job with its globals [worker_id], [gpu_id] set; running a job; or left
    after the pool was closed. *)
Inductive wstate :=
| WSpawned
| WReady (worker_id gpu_id : Z)
| WBusy (worker_id gpu_id : Z) (j : job)
| WExited.

Record mpstate := MP {
  pool_init_fn : option initfn;   (* the initializer's bound [init_fn] *)
  gpu_queue : list (Z * Z);
  result_queue : list value;
  inqueue : list job;
  workers : list wstate;
  closed : bool
}.

Record world := World { mp : option mpstate; trace : list event }.

(** ** Code run inside a pool process

    A computation of a worker process acts on the shared state and the trace;
    it can block ([None]), return or raise. *)

Definition pstate : Type := mpstate * list event.

Definition M (A : Type) : Type := pstate → option (outcome A * pstate).

Definition ret {A} (a : A) : M A := λ s, Some (Ret a, s).
Definition raise {A} (e : pyexc) : M A := λ s, Some (Raise e, s).
Definition bind {A B} (m : M A) (k : A → M B) : M B :=
  λ s, match m s with
       | None => None
       | Some (Ret a, s') => k a s'
       | Some (Raise e, s') => Some (Raise e, s')
       end.

Notation "x <- m ;; k" := (bind m (λ x, k))
  (at level 100, m at next level, right associativity).
Notation "m >> k" := (bind m (λ _, k))
  (at level 100, right associativity).

(** [try: body except Exception as e: handler e] *)
Definition try_except_Exception {A} (body : M A) (handler : pyexc → M A) : M A :=
  λ s, match body s with
       | Some (Raise e, s') =>
           if is_Exception e then handler e s' else Some (Raise e, s')
       | r => r
       end.

Definition emit (ev : event) : M unit := λ '(m, tr), Some (Ret tt, (m, tr ++ [ev])).
Definition log (r : logrecord) : M unit := emit (EvLog r).

(** [gpu_queue.get()]: blocks while the queue is empty. *)
Definition gpu_queue_get : M (Z * Z) :=
  λ '(m, tr),
    match gpu_queue m with
    | [] => None
    | (w, g) :: q =>
        Some (Ret (w, g),
              (MP (pool_init_fn m) q (result_queue m) (inqueue m) (workers m) (closed m),
               tr ++ [EvClaim w g]))
    end.

(** [result_queue.put(v)]: the queue is unbounded, a put never blocks. *)
Definition result_queue_put (v : value) : M unit :=
  λ '(m, tr),
    Some (Ret tt,
          (MP (pool_init_fn m) (gpu_queue m) (result_queue m ++ [v]) (inqueue m)
              (workers m) (closed m),
           tr)).

Definition call_task (func : task) (worker_id gpu_id : Z) : M value :=
  emit (EvTask func worker_id gpu_id) >> λ s, Some (func worker_id gpu_id, s).

Definition call_init_fn (f : initfn) (worker_id gpu_id : Z) : M unit :=
  emit (EvInitFn worker_id gpu_id) >> λ s, Some (f worker_id gpu_id, s).

(** [_init_worker]: returns the pair it stores in the process globals
    [worker_id], [gpu_id].  The new format it sets on the first log handler
    is left out: log records are kept by payload, not as formatted text. *)
Definition _init_worker (init_fn : option initfn) : M (Z * Z) :=
  ident <- gpu_queue_get ;;
  match init_fn with
  | Some f => call_init_fn f ident.1 ident.2
  | None => ret tt
  end >>
  log (LogWorkerInitialized ident.1 ident.2) >>
  ret ident.

(** [_run_task], with the process globals as arguments.  Both the call of
    the task and the put of its result are inside the [try]. *)
Definition _run_task (func : task) (ignore_errors : bool) (worker_id gpu_id : Z) : M unit :=
  try_except_Exception
    (result <- call_task func worker_id gpu_id ;;
     result_queue_put result)
    (λ e,
       log (LogTraceback e) >>
       result_queue_put VNone >>
       if negb ignore_errors then raise e else ret tt).

(** ** Construction *)

Record GPUParallel := Self {
  debug_mode : bool;
  n_gpu : Z;
  n_workers_per_gpu : Z;
  return_generator : bool;
  progressbar : bool;
  ignore_errors : bool
}.

(** Python's [range(n)]: [0, 1, ..., n-1], empty for [n <= 0]. *)
Definition range (n : Z) : list Z := seqZ 0 n.

(** The two nested loops of [__init__] that fill [gpu_queue]. *)
Definition fill_gpu_queue (n_gpu n_workers_per_gpu : Z) : list (Z * Z) :=
  foldl (λ q gpu_id,
           foldl (λ q idx, q ++ [(gpu_id * n_workers_per_gpu + idx, gpu_id)%Z])
                 q (range n_workers_per_gpu))
        [] (range n_gpu).

(** [Pool(processes=n, initializer=...)] refuses [n < 1] with a ValueError;
    otherwise it starts [n] processes, each of which runs the initializer
    on its own, after [__init__] has returned or while it still runs.  The
    instance does not keep [init_fn]: it is bound in the pool's initializer. *)
Definition __init__ (n_gpu n_workers_per_gpu : Z) (init_fn : option initfn)
    (return_generator progressbar ignore_errors : bool) : outcome GPUParallel * world :=
  let self := Self (n_gpu =? 0)%Z n_gpu n_workers_per_gpu
                   return_generator progressbar ignore_errors in
  if negb (debug_mode self) then
    let q := fill_gpu_queue n_gpu n_workers_per_gpu in
    let processes := (n_gpu * n_workers_per_gpu)%Z in
    if (processes <? 1)%Z then (Raise (Exc "ValueError"), World None [])
    else
      (Ret self,
       World (Some (MP init_fn q [] [] (replicate (Z.to_nat processes) WSpawned) false))
             [EvPoolCreate processes])
  else
    let tr := [EvLog LogDebugModeInit] in
    match init_fn with
    | Some f =>
        match f 0%Z 0%Z with
        | Ret _ => (Ret self, World None (tr ++ [EvInitFn 0 0]))
        | Raise e => (Raise e, World None (tr ++ [EvInitFn 0 0]))
        end
    | None => (Ret self, World None tr)
    end.

(** ** Generators

    [_call_async] and [_call_sync] are generator functions: calling them
    creates a suspended generator, whose body runs when it is resumed.  A
    generator object is mutable; its successive states are threaded through
    [resume]. *)

Inductive gen :=
| ASubmit (rest : list task) (n_tasks : nat)  (* _call_async: the submission loop *)
| ALoop (k : nat)      (* _call_async: head of the range(n_tasks) loop, k rounds left *)
| AYield (k : nat)     (* _call_async: suspended at the yield, k rounds left *)
| SNew (tasks : list task)   (* _call_sync: created, not started *)
| SLoop (rest : list task)   (* _call_sync: head of the for loop *)
| GDone.                     (* returned or raised: a finished generator *)

Inductive signal :=
| Yield (v : value)
| StopIteration
| Raised (e : pyexc).

Definition _call_async (self : GPUParallel) (tasks : list task) : gen := ASubmit tasks 0.
Definition _call_sync (self : GPUParallel) (tasks : list task) : gen := SNew tasks.

Definition when (b : bool) (evs : list event) : list event := if b then evs else [].

(** One step of the generator's body; [None] when it blocks in
    [result_queue.get()].  The third component is what reaches the consumer,
    if anything does at this step. *)
Definition resume (self : GPUParallel) (g : gen) (w : world)
    : option (gen * world * option signal) :=
  match g with
  | ASubmit (t :: rest) n =>
      match mp w with
      | None => Some (GDone, w, Some (Raised (Exc "AttributeError")))
      | Some m =>
          if closed m then Some (GDone, w, Some (Raised (Exc "ValueError")))
          else
            let m' := MP (pool_init_fn m) (gpu_queue m) (result_queue m)
                         (inqueue m ++ [Job t (ignore_errors self)])
                         (workers m) (closed m) in
            Some (ASubmit rest (S n), World (Some m') (trace w), None)
      end
  | ASubmit [] n =>
      Some (ALoop n,
            World (mp w) (trace w ++ [EvLog (LogSubmitted n)]
                                  ++ when (progressbar self) [EvPbarOpen n]),
            None)
  | ALoop (S k) =>
      match mp w with
      | None => Some (GDone, w, Some (Raised (Exc "AttributeError")))
      | Some m =>
          match result_queue m with
          | [] => None
          | v :: q =>
              let m' := MP (pool_init_fn m) (gpu_queue m) q (inqueue m)
                           (workers m) (closed m) in
              Some (AYield k, World (Some m') (trace w), Some (Yield v))
          end
      end
  | AYield k =>
      Some (ALoop k,
            World (mp w) (trace w ++ when (progressbar self) [EvPbarUpdate]),
            None)
  | ALoop 0 =>
      Some (GDone,
            World (mp w) (trace w ++ when (progressbar self) [EvPbarClose]
                                  ++ [EvLog LogAllReceived]),
            Some StopIteration)
  | SNew tasks =>
      Some (SLoop tasks,
            World (mp w) (trace w ++ [EvLog LogDebugModeCall]
                                  ++ when (progressbar self) [EvPbarOpen (length tasks)]),
            None)
  | SLoop (t :: rest) =>
      let w' := World (mp w) (trace w ++ [EvTask t 0 0]) in
      match t 0%Z 0%Z with
      | Ret v => Some (SLoop rest, w', Some (Yield v))
      | Raise e => Some (GDone, w', Some (Raised e))
      end
  | SLoop [] => Some (GDone, w, Some StopIteration)
  | GDone => Some (GDone, w, Some StopIteration)
  end.

(** ** The coordinator *)

(** What the main process is doing. *)
Inductive frame :=
| FComp (g : gen) (acc : list value)  (* evaluating [x for x in generator] *)
| FList (l : list value) (g : gen)    (* the list is built; [g] is the spent generator *)
| FGen (g : gen)                      (* [__call__] returned the generator itself *)
| FExc (e : pyexc) (g : gen)          (* an exception reached the caller *)
| FClose                              (* __del__: at pool.close() *)
| FJoin                               (* __del__: in pool.join() *)
| FIdle.                              (* no call in progress *)

Definition __call__ (self : GPUParallel) (tasks : list task) : frame :=
  let generator :=
    if negb (debug_mode self) then _call_async self tasks else _call_sync self tasks in
  if return_generator self then FGen generator else FComp generator [].

(** What a caller does with a returned generator: [list(generator)]. *)
Definition consume (g : gen) : frame := FComp g [].

Definition __del__ (self : GPUParallel) : frame :=
  if negb (debug_mode self) then FClose else FIdle.

Definition is_exited (s : wstate) : bool :=
  match s with WExited => true | _ => false end.

Definition main_step (self : GPUParallel) (f : frame) (w : world) : option (frame * world) :=
  match f with
  | FComp g acc =>
      match resume self g w with
      | None => None
      | Some (g', w', None) => Some (FComp g' acc, w')
      | Some (g', w', Some (Yield v)) => Some (FComp g' (acc ++ [v]), w')
      | Some (g', w', Some StopIteration) => Some (FList acc g', w')
      | Some (g', w', Some (Raised e)) => Some (FExc e g', w')
      end
  | FClose =>
      match mp w with
      | None => Some (FExc (Exc "AttributeError") GDone, w)
      | Some m =>
          let m' := MP (pool_init_fn m) (gpu_queue m) (result_queue m) (inqueue m)
                       (workers m) true in
          Some (FJoin, World (Some m') (trace w ++ [EvPoolClose]))
      end
  | FJoin =>
      match mp w with
      | None => None
      | Some m =>
          if forallb is_exited (workers m)
          then Some (FIdle, World (mp w) (trace w ++ [EvPoolJoin]))
          else None
      end
  | _ => None
  end.

(** ** The pool processes (CPython's [multiprocessing.pool.worker])

    A process runs the initializer, then takes jobs from the pool's queue in
    FIFO order until the pool is closed and the queue is empty.  The worker
    loop catches an [Exception] raised by a job (it is stored in the job's
    result handle, which nobody reads here); any other exception, and any
    exception of the initializer, ends the process, and the pool starts a
    fresh one in its place. *)

Definition set_worker (i : nat) (s : wstate) (m : mpstate) : mpstate :=
  MP (pool_init_fn m) (gpu_queue m) (result_queue m) (inqueue m)
     (<[i := s]> (workers m)) (closed m).

Definition worker_step (i : nat) (w : world) : option world :=
  match mp w with
  | None => None
  | Some m =>
      match workers m !! i with
      | None => None
      | Some WSpawned =>
          match _init_worker (pool_init_fn m) (m, trace w) with
          | None => None
          | Some (Ret (worker_id, gpu_id), (m', tr')) =>
              Some (World (Some (set_worker i (WReady worker_id gpu_id) m')) tr')
          | Some (Raise e, (m', tr')) =>
              Some (World (Some (set_worker i WSpawned m')) tr')
          end
      | Some (WReady worker_id gpu_id) =>
          match inqueue m with
          | j :: q =>
              let m' := MP (pool_init_fn m) (gpu_queue m) (result_queue m) q
                           (workers m) (closed m) in
              Some (World (Some (set_worker i (WBusy worker_id gpu_id j) m')) (trace w))
          | [] =>
              if closed m
              then Some (World (Some (set_worker i WExited m)) (trace w))
              else None
          end
      | Some (WBusy worker_id gpu_id j) =>
          match _run_task (job_func j) (job_ignore_errors j) worker_id gpu_id
                          (m, trace w) with
          | None => None
          | Some (Ret _, (m', tr')) =>
              Some (World (Some (set_worker i (WReady worker_id gpu_id) m')) tr')
          | Some (Raise e, (m', tr')) =>
              if is_Exception e
              then Some (World (Some (set_worker i (WReady worker_id gpu_id) m')) tr')
              else Some (World (Some (set_worker i WSpawned m')) tr')
          end
      | Some WExited => None
      end
  end.

(** ** Interleaving *)

Inductive actor := Main | Worker (i : nat).

Definition config : Type := frame * world.

Definition step (self : GPUParallel) (a : actor) (c : config) : option config :=
  match a with
  | Main => main_step self c.1 c.2
  | Worker i => (λ w', (c.1, w')) <$> worker_step i c.2
  end.

Definition n_processes (w : world) : nat :=
  match mp w with
  | None => 0
  | Some m => length (workers m)
  end.

Definition actors (w : world) : list actor := Main :: (Worker <$> seq 0 (n_processes w)).

Definition can_step (self : GPUParallel) (c : config) (a : actor) : bool :=
  match step self a c with Some _ => true | None => false end.

Definition enabled (self : GPUParallel) (c : config) : list actor :=
  List.filter (can_step self c) (actors c.2).

(** A schedule is a list of choices; choice [n] picks the enabled actor of
    index [n mod (number of enabled actors)].  The run stops at the end of the
    schedule or when nobody can move. *)
Fixpoint exec (self : GPUParallel) (sched : list nat) (c : config) : config :=
  match sched with
  | [] => c
  | n :: sched' =>
      let en := enabled self c in
      match en !! (n mod length en) with
      | None => c
      | Some a =>
          match step self a c with
          | None => c
          | Some c' => exec self sched' c'
          end
      end
  end.

(** ** Summaries of the worker-side code

    What [_init_worker] and [_run_task] do, written out by cases: the events
    they append, the values they publish and the state the pool process is
    left in.  [init_worker_eval] and [run_task_eval] below prove that the
    monadic code does exactly this. *)

Definition init_effect (init_fn : option initfn) (worker_id gpu_id : Z)
    : list event * wstate :=
  match init_fn with
  | None => ([EvLog (LogWorkerInitialized worker_id gpu_id)], WReady worker_id gpu_id)
  | Some f =>
      match f worker_id gpu_id with
      | Ret _ => ([EvInitFn worker_id gpu_id;
                   EvLog (LogWorkerInitialized worker_id gpu_id)],
                  WReady worker_id gpu_id)
      | Raise _ => ([EvInitFn worker_id gpu_id], WSpawned)
      end
  end.

Definition run_effect (j : job) (worker_id gpu_id : Z)
    : list value * list event * wstate :=
  let ev := EvTask (job_func j) worker_id gpu_id in
  match job_func j worker_id gpu_id with
  | Ret v => ([v], [ev], WReady worker_id gpu_id)
  | Raise e =>
      if is_Exception e
      then ([VNone], [ev; EvLog (LogTraceback e)], WReady worker_id gpu_id)
      else ([], [ev], WSpawned)
  end.

Inductive worker_trans (i : nat) : world → world → Prop :=
| wt_init m tr w g q evs s' :
    workers m !! i = Some WSpawned →
    gpu_queue m = (w, g) :: q →
    init_effect (pool_init_fn m) w g = (evs, s') →
    worker_trans i (World (Some m) tr)
      (World (Some (MP (pool_init_fn m) q (result_queue m) (inqueue m)
                       (<[i := s']> (workers m)) (closed m)))
             (tr ++ EvClaim w g :: evs))
| wt_pick m tr w g j q :
    workers m !! i = Some (WReady w g) →
    inqueue m = j :: q →
    worker_trans i (World (Some m) tr)
      (World (Some (MP (pool_init_fn m) (gpu_queue m) (result_queue m) q
                       (<[i := WBusy w g j]> (workers m)) (closed m)))
             tr)
| wt_exit m tr w g :
    workers m !! i = Some (WReady w g) →
    inqueue m = [] →
    closed m = true →
    worker_trans i (World (Some m) tr)
      (World (Some (MP (pool_init_fn m) (gpu_queue m) (result_queue m) (inqueue m)
                       (<[i := WExited]> (workers m)) (closed m)))
             tr)
| wt_run m tr w g j vs evs s' :
    workers m !! i = Some (WBusy w g j) →
    run_effect j w g = (vs, evs, s') →
    worker_trans i (World (Some m) tr)
      (World (Some (MP (pool_init_fn m) (gpu_queue m) (result_queue m ++ vs) (inqueue m)
                       (<[i := s']> (workers m)) (closed m)))
             (tr ++ evs)).

(** ** A termination measure

    Every step of every actor lowers [mu]: no run is infinite, and a schedule
    of at least [mu c] choices drives [c] to a configuration where nobody can
    move. *)

Definition rank (s : wstate) : nat :=
  match s with
  | WExited => 0
  | WReady _ _ => 1
  | WSpawned => 2
  | WBusy _ _ _ => 3
  end.

Definition pool_mu (m : mpstate) : nat :=
  4 * length (inqueue m) + length (gpu_queue m) + sum_list_with rank (workers m).

Definition gen_mu (g : gen) : nat :=
  match g with
  | ASubmit rest n => 7 * length rest + 2 * n + 2
  | ALoop k => 2 * k + 1
  | AYield k => 2 * k + 2
  | SNew tasks => length tasks + 2
  | SLoop rest => length rest + 1
  | GDone => 0
  end.

Definition frame_mu (f : frame) : nat :=
  match f with
  | FComp g _ => gen_mu g + 1
  | FClose => 2
  | FJoin => 1
  | _ => 0
  end.

Definition world_mu (w : world) : nat :=
  match mp w with
  | None => 0
  | Some m => pool_mu m
  end.

Definition mu (c : config) : nat := frame_mu c.1 + world_mu c.2.

(** ** Well-behaved tasks and healthy pools *)

(** A task whose failures, if any, are instances of [Exception]: the ones
    [_run_task] and the pool's worker loop catch. *)
Definition catchable (t : task) : Prop :=
  ∀ w g, match t w g with
         | Ret _ => True
         | Raise e => is_Exception e = true
         end.

Definition init_succeeds (init_fn : option initfn) : Prop :=
  match init_fn with
  | None => True
  | Some f => ∀ w g, f w g = Ret tt
  end.

Definition spawned (s : wstate) : nat := match s with WSpawned => 1 | _ => 0 end.
Definition busy (s : wstate) : nat := match s with WBusy _ _ _ => 1 | _ => 0 end.
Definition exited (s : wstate) : nat := match s with WExited => 1 | _ => 0 end.

Definition busy_ok (s : wstate) : Prop :=
  match s with
  | WBusy _ _ j => catchable (job_func j)
  | _ => True
  end.

(** No process of the pool can be lost: the initializer succeeds, every
    process still to be initialized has an identity waiting for it, and every
    job taken or queued is catchable. *)
Record pool_ok (m : mpstate) : Prop := {
  ok_init : init_succeeds (pool_init_fn m);
  ok_spawned : sum_list_with spawned (workers m) ≤ length (gpu_queue m);
  ok_queued : Forall (λ j, catchable (job_func j)) (inqueue m);
  ok_busy : Forall busy_ok (workers m)
}.

(** A pool that accepts and serves jobs. *)
Record serving (m : mpstate) : Prop := {
  sv_ok : pool_ok m;
  sv_open : closed m = false;
  sv_some : 0 < length (workers m);
  sv_alive : sum_list_with exited (workers m) = 0
}.

Definition serving_world (w : world) : Prop :=
  ∃ m, mp w = Some m ∧ serving m.

(** Results published or still to come. *)
Definition supply (m : mpstate) : nat :=
  length (result_queue m) + length (inqueue m) + sum_list_with busy (workers m).

(** Results an [_call_async] generator has still to receive for the jobs it
    has submitted so far, and the number of items it will yield in all. *)
Definition need (g : gen) : nat :=
  match g with
  | ASubmit _ n => n
  | ALoop k | AYield k => k
  | _ => 0
  end.

Definition to_yield (g : gen) : nat :=
  match g with
  | ASubmit rest n => n + length rest
  | ALoop k | AYield k => k
  | _ => 0
  end.

Definition async_gen (g : gen) : Prop :=
  match g with
  | ASubmit rest _ => Forall catchable rest
  | ALoop _ | AYield _ => True
  | _ => False
  end.

(** The invariant of a dispatch of [N] tasks on a serving pool. *)
Definition dispatch_inv (N : nat) (c : config) : Prop :=
  ∃ m, mp c.2 = Some m ∧ serving m ∧
    match c.1 with
    | FComp g acc => async_gen g ∧ length acc + to_yield g = N ∧ need g ≤ supply m
    | FList l g => length l = N ∧ g = GDone
    | _ => False
    end.

(** The frame in which the results of a call are collected: the list
    comprehension of [__call__] itself, or the caller's [list(...)] of the
    generator that [__call__] returned. *)
Definition collect (f : frame) : frame :=
  match f with
  | FGen g => consume g
  | _ => f
  end.


(** ** Identities

    The enumeration in the words of the specification: device-major, then
    local index, with [slot_id = device_id * slots_per_device + local_index]. *)
Definition identities (devices slots_per_device : Z) : list (Z * Z) :=
  d ← range devices;
  (λ local_index, (d * slots_per_device + local_index, d)%Z) <$> range slots_per_device.

(** The identities claimed so far ([gpu_queue.get()]) and the ones [init_fn]
    was called with, in the order of the trace. *)
Definition claimed (tr : list event) : list (Z * Z) :=
  omap (λ ev, match ev with EvClaim w g => Some (w, g) | _ => None end) tr.

Definition inited (tr : list event) : list (Z * Z) :=
  omap (λ ev, match ev with EvInitFn w g => Some (w, g) | _ => None end) tr.

Definition is_create (ev : event) : bool :=
  match ev with EvPoolCreate _ => true | _ => false end.
Definition is_close (ev : event) : bool :=
  match ev with EvPoolClose => true | _ => false end.
Definition is_join (ev : event) : bool :=
  match ev with EvPoolJoin => true | _ => false end.

Definition count (p : event → bool) (tr : list event) : nat :=
  length (List.filter p tr).

(** Events of the coordinator after construction: it never claims an
    identity, calls [init_fn] or creates a pool. *)
Definition coordinator_event (ev : event) : Prop :=
  match ev with
  | EvClaim _ _ | EvInitFn _ _ | EvPoolCreate _ => False
  | _ => True
  end.

(** Events of a dispatch: these do not tear the pool down either. *)
Definition dispatch_event (ev : event) : Prop :=
  match ev with
  | EvLog _ | EvTask _ _ _ | EvPbarOpen _ | EvPbarUpdate | EvPbarClose => True
  | _ => False
  end.

(** The hand-out of identities, at any moment of the life of a pool built
    for [ids]: what was claimed and what is left make up [ids], in order;
    [init_fn], when there is one, saw exactly the claimed identities; as long
    as identities are left, there is a process still to claim one. *)
Definition claim_inv (init_fn : option initfn) (ids : list (Z * Z)) (w : world) : Prop :=
  ∃ m, mp w = Some m ∧
       pool_init_fn m = init_fn ∧
       claimed (trace w) ++ gpu_queue m = ids ∧
       inited (trace w) = match init_fn with
                          | Some _ => claimed (trace w)
                          | None => []
                          end ∧
       length (gpu_queue m) ≤ sum_list_with spawned (workers m) ∧
       count is_create (trace w) = 1.


(** The coordinator leaves the identity queue, the initializer and the set
    of processes alone. *)
Definition pool_same (o o' : option mpstate) : Prop :=
  match o, o' with
  | None, None => True
  | Some m, Some m' =>
      pool_init_fn m' = pool_init_fn m ∧ gpu_queue m' = gpu_queue m ∧
      workers m' = workers m
  | _, _ => False
  end.


(** The calls a debug-mode dispatch makes for [ts]: each task at the fixed
    identity [(0, 0)], in the order of the list. *)
Definition call_events (ts : list task) : list event := (λ t, EvTask t 0 0) <$> ts.


(** ** The life of an instance *)

(** Successive calls of the dispatcher on one instance, each under its own
    schedule and each on the world the previous one left. *)
Fixpoint session (self : GPUParallel) (calls : list (list task * list nat)) (w : world)
    : world :=
  match calls with
  | [] => w
  | (tasks, sched) :: calls' =>
      session self calls' (exec self sched (collect (__call__ self tasks), w)).2
  end.

(** A frame of a dispatch whose tasks still to submit are catchable. *)
Definition frame_ok (f : frame) : Prop :=
  match f with
  | FComp (ASubmit rest _) _ => Forall catchable rest
  | FComp _ _ | FList _ _ | FGen _ | FExc _ _ => True
  | FClose | FJoin | FIdle => False
  end.

(** The frames of a dispatch, and the worlds in which the pool was never
    torn down. *)
Definition dispatching (f : frame) : Prop :=
  match f with
  | FClose | FJoin | FIdle => False
  | _ => True
  end.

Definition untorn (w : world) : Prop :=
  count is_close (trace w) = 0 ∧ count is_join (trace w) = 0.

(** During disposal. *)
Definition disposing (c : config) : Prop :=
  ∃ m, mp c.2 = Some m ∧ pool_ok m ∧
    match c.1 with
    | FClose => closed m = false ∧
                count is_close (trace c.2) = 0 ∧ count is_join (trace c.2) = 0
    | FJoin => closed m = true ∧
               count is_close (trace c.2) = 1 ∧ count is_join (trace c.2) = 0
    | FIdle => count is_close (trace c.2) = 1 ∧ count is_join (trace c.2) = 1
    | _ => False
    end.

(** The frames of a dispatch of no task at all, and of the consumption of a
    finished generator. *)
Definition empty_dispatch (f : frame) : Prop :=
  f = FComp (ASubmit [] 0) [] ∨ f = FComp (ALoop 0) [] ∨
  f = FComp (SNew []) [] ∨ f = FComp (SLoop []) [] ∨ f = FList [] GDone.

Definition spent (f : frame) : Prop :=
  f = FComp GDone [] ∨ f = FList [] GDone.

(** A list or an exception reaches the caller only from a finished
    generator. *)
Definition drained (f : frame) : Prop :=
  match f with
  | FList _ g | FExc _ g => g = GDone
  | _ => True
  end.


(** ** Sample callables *)

Definition task_identity : task := λ worker_id gpu_id, Ret (VTuple (VInt worker_id) (VInt gpu_id)).
Definition task_none : task := λ _ _, Ret VNone.
Definition task_failing : task := λ _ _, Raise (Exc "RuntimeError").
Definition task_exit : task := λ _ _, Raise (BaseExc "SystemExit").
Definition init_noop : initfn := λ _ _, Ret tt.

(** The instance and the world built by [GPUParallel(n_gpu, n_workers_per_gpu)]. *)
Definition instance (D W : Z) (o : option initfn) (rg pb ign : bool) : GPUParallel :=
  Self (D =? 0)%Z D W rg pb ign.

Definition pool_world (D W : Z) (o : option initfn) : world :=
  World (Some (MP o (identities D W) [] [] (replicate (Z.to_nat (D * W)) WSpawned) false))
        [EvPoolCreate (D * W)].


(** A dispatch of the single task [task_exit] whose slot is lost: nothing is
    or will be on the result queue, and the coordinator has not got past
    the first round of its collection loop. *)
Definition exits (s : wstate) : Prop :=
  match s with
  | WBusy _ _ j => job_func j = task_exit
  | _ => True
  end.

Definition lost (c : config) : Prop :=
  ∃ m, mp c.2 = Some m ∧ result_queue m = [] ∧ closed m = false ∧
       Forall (λ j, job_func j = task_exit) (inqueue m) ∧
       Forall exits (workers m) ∧
       (c.1 = FComp (ASubmit [task_exit] 0) [] ∨
        c.1 = FComp (ASubmit [] 1) [] ∨
        c.1 = FComp (ALoop 1) []).


(** ** What a caller can observe of a task

    The slot a worker publishes for the outcome of a task: the result, the
    empty slot [None] for a failure that [_run_task] catches, nothing for
    one it does not catch. *)
Definition slot (r : outcome value) : option value :=
  match r with
  | Ret v => Some v
  | Raise e => if is_Exception e then Some VNone else None
  end.

Definition same_slots (t1 t2 : task) : Prop :=
  ∀ w g, slot (t1 w g) = slot (t2 w g).

(** Two configurations that differ only in tasks with the same slots, and in
    their traces. *)
Definition job_sim (j1 j2 : job) : Prop := same_slots (job_func j1) (job_func j2).

Definition wstate_sim (s1 s2 : wstate) : Prop :=
  match s1, s2 with
  | WSpawned, WSpawned | WExited, WExited => True
  | WReady a b, WReady a' b' => a = a' ∧ b = b'
  | WBusy a b j1, WBusy a' b' j2 => a = a' ∧ b = b' ∧ job_sim j1 j2
  | _, _ => False
  end.

Definition mp_sim (m1 m2 : mpstate) : Prop :=
  pool_init_fn m1 = pool_init_fn m2 ∧ gpu_queue m1 = gpu_queue m2 ∧
  result_queue m1 = result_queue m2 ∧ closed m1 = closed m2 ∧
  Forall2 job_sim (inqueue m1) (inqueue m2) ∧
  Forall2 wstate_sim (workers m1) (workers m2).

Definition world_sim (w1 w2 : world) : Prop :=
  match mp w1, mp w2 with
  | Some m1, Some m2 => mp_sim m1 m2
  | None, None => True
  | _, _ => False
  end.

Definition gen_sim (g1 g2 : gen) : Prop :=
  match g1, g2 with
  | ASubmit r1 n1, ASubmit r2 n2 => Forall2 same_slots r1 r2 ∧ n1 = n2
  | ALoop k1, ALoop k2 | AYield k1, AYield k2 => k1 = k2
  | GDone, GDone => True
  | _, _ => False
  end.

Definition frame_sim (f1 f2 : frame) : Prop :=
  match f1, f2 with
  | FComp g1 acc1, FComp g2 acc2 => gen_sim g1 g2 ∧ acc1 = acc2
  | FList l1 g1, FList l2 g2 => l1 = l2 ∧ gen_sim g1 g2
  | FExc e1 g1, FExc e2 g2 => e1 = e2 ∧ gen_sim g1 g2
  | _, _ => False
  end.

Definition sim (c1 c2 : config) : Prop := frame_sim c1.1 c2.1 ∧ world_sim c1.2 c2.2.


(** ** Further invariants of a dispatch *)

(** A pool with nothing published, queued or running. *)
Definition clean (m : mpstate) : Prop :=
  result_queue m = [] ∧ inqueue m = [] ∧ sum_list_with busy (workers m) = 0.

Definition frame_need (f : frame) : nat :=
  match f with
  | FComp g _ => need g
  | _ => 0
  end.

(** The result queue is first-in first-out and has one reader: what the
    coordinator has collected, followed by what is still on the queue, is
    what was on the queue at the start followed by what was published
    since. *)
Definition fifo_inv (stale : list value) (c : config) : Prop :=
  match c.1 with
  | FComp (SNew _ | SLoop _) _ => False
  | FComp _ acc | FList acc _ =>
      ∃ m pub, mp c.2 = Some m ∧ acc ++ result_queue m = stale ++ pub
  | _ => True
  end.

(** A dispatch that has exactly as many results to come as it still has to
    receive. *)
Definition balanced (c : config) : Prop :=
  ∃ m, mp c.2 = Some m ∧ supply m = frame_need c.1.

(** During disposal: no job is lost, and once a process has left, the job
    queue is empty. *)
Definition winding_down (s : nat) (c : config) : Prop :=
  ∃ m, mp c.2 = Some m ∧ pool_ok m ∧ supply m = s ∧ 0 < length (workers m) ∧
       (0 < sum_list_with exited (workers m) → inqueue m = []) ∧
       match c.1 with
       | FClose => closed m = false
       | FJoin => closed m = true
       | FIdle => forallb is_exited (workers m) = true
       | _ => False
       end.

(** ** Identities held by the processes *)

(** The identity in the globals of a process, once the initializer has set
    them. *)
Definition ident (s : wstate) : option (Z * Z) :=
  match s with
  | WReady a b | WBusy a b _ => Some (a, b)
  | _ => None
  end.

Definition worker_ident (w : world) (i : nat) : option (Z * Z) :=
  match mp w with
  | Some m => match workers m !! i with Some s => ident s | None => None end
  | None => None
  end.

(** The identities the tasks were called with, in the order of the trace. *)
Definition task_idents (tr : list event) : list (Z * Z) :=
  omap (λ ev, match ev with EvTask _ w g => Some (w, g) | _ => None end) tr.

(** Every identity held was claimed, and no two processes hold the same. *)
Definition holds (m : mpstate) (tr : list event) : Prop :=
  (∀ i s id, workers m !! i = Some s → ident s = Some id → id ∈ claimed tr) ∧
  (∀ i j s s' id, workers m !! i = Some s → workers m !! j = Some s' →
                  ident s = Some id → ident s' = Some id → i = j).

Definition ident_inv (ids : list (Z * Z)) (w : world) : Prop :=
  ∃ m, mp w = Some m ∧ NoDup ids ∧ (0, 0)%Z ∈ ids ∧
       claimed (trace w) ++ gpu_queue m = ids ∧
       holds m (trace w) ∧
       Forall (λ id, id ∈ ids) (task_idents (trace w)).


(** ** A pool whose processes never get ready *)

Definition init_fails (init_fn : option initfn) : Prop :=
  ∃ f, init_fn = Some f ∧ ∀ w g, ∃ e, f w g = Raise e.

(** No process has an identity and none can get one: the identity queue is
    empty, or [init_fn] fails for every identity.  The coordinator is in a
    dispatch of at least one task and has received nothing. *)
Definition starved (c : config) : Prop :=
  ∃ m, mp c.2 = Some m ∧ Forall (λ s, s = WSpawned) (workers m) ∧
       result_queue m = [] ∧ closed m = false ∧
       (gpu_queue m = [] ∨ init_fails (pool_init_fn m)) ∧
       task_idents (trace c.2) = [] ∧
       match c.1 with
       | FComp (ASubmit rest n) [] => 0 < n + length rest
       | FComp (ALoop k) [] => 0 < k
       | _ => False
       end.


(** The identity queue is empty and nothing was ever taken from it. *)
Definition unclaimed (w : world) : Prop :=
  ∃ m, mp w = Some m ∧ gpu_queue m = [] ∧ claimed (trace w) = [].

(** ** One process: results in submission order *)

(** The slot a worker publishes for a task it runs to the end. *)
Definition published (t : task) (worker_id gpu_id : Z) : value :=
  match t worker_id gpu_id with
  | Ret v => v
  | Raise _ => VNone
  end.

(** The pool has one process, which holds, or is about to claim, the
    identity [(a, b)]. *)
Definition sole (a b : Z) (m : mpstate) : Prop :=
  match workers m with
  | [WSpawned] => head (gpu_queue m) = Some (a, b)
  | [WReady a' b'] | [WBusy a' b' _] => a' = a ∧ b' = b
  | _ => False
  end.

Definition running (a b : Z) (ws : list wstate) : list value :=
  match ws with
  | [WBusy _ _ j] => [published (job_func j) a b]
  | _ => []
  end.

Definition collected (f : frame) : list value :=
  match f with
  | FComp _ acc | FList acc _ => acc
  | _ => []
  end.

Definition unsent (f : frame) : list task :=
  match f with
  | FComp (ASubmit rest _) _ => rest
  | _ => []
  end.

(** What was collected, what is published, what is running, what is queued
    and what is still to submit, in this order, are the slots of the tasks in
    the order of the tasks. *)
Definition in_order (a b : Z) (expected : list value) (c : config) : Prop :=
  ∃ m, mp c.2 = Some m ∧ sole a b m ∧
       collected c.1 ++ result_queue m ++ running a b (workers m) ++
       ((λ j, published (job_func j) a b) <$> inqueue m) ++
       ((λ t, published t a b) <$> unsent c.1) = expected.


(** ** The progress bar *)

Definition is_pbar (ev : event) : bool :=
  match ev with
  | EvPbarOpen _ | EvPbarUpdate | EvPbarClose => true
  | _ => false
  end.

(** What the progress bar was told, in order. *)
Definition pbar (tr : list event) : list event := List.filter is_pbar tr.

Definition pbar_inv (self : GPUParallel) (base : list event) (N : nat) (c : config) : Prop :=
  match c.1 with
  | FComp (ASubmit rest n) acc =>
      acc = [] ∧ n + length rest = N ∧ pbar (trace c.2) = base
  | FComp (ALoop k) acc =>
      length acc + k = N ∧
      pbar (trace c.2) =
      base ++ when (progressbar self)
                   (EvPbarOpen N :: replicate (length acc) EvPbarUpdate)
  | FComp (AYield k) acc =>
      length acc + k = N ∧
      ∃ acc0 v, acc = acc0 ++ [v] ∧
      pbar (trace c.2) =
      base ++ when (progressbar self)
                   (EvPbarOpen N :: replicate (length acc0) EvPbarUpdate)
  | FList l _ =>
      length l = N ∧
      pbar (trace c.2) =
      base ++ when (progressbar self)
                   (EvPbarOpen N :: replicate N EvPbarUpdate ++ [EvPbarClose])
  | FExc _ _ => True
  | _ => False
  end.


(** ** Lazy mode *)

(** No job is queued or running (or there is no pool). *)
Definition idle (w : world) : Prop :=
  match mp w with
  | Some m => inqueue m = [] ∧ sum_list_with busy (workers m) = 0
  | None => True
  end.


(** ** Each task is called once *)

(** The calls of tasks in a trace: the task and the identity it was called
    with. *)
Definition task_calls (tr : list event) : list (task * (Z * Z)) :=
  omap (λ ev, match ev with EvTask t a b => Some (t, (a, b)) | _ => None end) tr.

Definition in_flight_one (s : wstate) : list task :=
  match s with
  | WBusy _ _ j => [job_func j]
  | _ => []
  end.

(** The tasks the processes are running. *)
Definition in_flight (ws : list wstate) : list task := ws ≫= in_flight_one.

Definition slot_of (c : task * (Z * Z)) : value := published c.1 c.2.1 c.2.2.

(** The tasks called since the dispatch began, those running, those queued
    and those still to submit are the tasks of the dispatch; what was
    collected and what is published are the slots of the calls. *)
Definition once_inv (before : list (task * (Z * Z))) (tasks : list task) (c : config)
    : Prop :=
  ∃ m calls, mp c.2 = Some m ∧
    task_calls (trace c.2) = before ++ calls ∧
    (fst <$> calls) ++ in_flight (workers m) ++ (job_func <$> inqueue m) ++ unsent c.1
      ≡ₚ tasks ∧
    collected c.1 ++ result_queue m ≡ₚ slot_of <$> calls.


(** * Proofs *)

(** ** The worker-side code, evaluated *)

Lemma run_task_eval func ign w g m tr :
  _run_task func ign w g (m, tr) =
  let ev := EvTask func w g in
  match func w g with
  | Ret v =>
      Some (Ret tt,
            (MP (pool_init_fn m) (gpu_queue m) (result_queue m ++ [v]) (inqueue m)
                (workers m) (closed m),
             tr ++ [ev]))
  | Raise e =>
      if is_Exception e then
        Some (if ign then Ret tt else Raise e,
              (MP (pool_init_fn m) (gpu_queue m) (result_queue m ++ [VNone]) (inqueue m)
                  (workers m) (closed m),
               (tr ++ [ev]) ++ [EvLog (LogTraceback e)]))
      else Some (Raise e, (m, tr ++ [ev]))
  end.
Proof.
  unfold _run_task, try_except_Exception, call_task, bind, emit, log, emit; simpl.
  destruct (func w g) as [v|e]; simpl; [done|].
  destruct (is_Exception e); [|done].
  by destruct ign.
Qed.

Lemma init_worker_eval init_fn m tr :
  _init_worker init_fn (m, tr) =
  match gpu_queue m with
  | [] => None
  | (w, g) :: q =>
      let m' := MP (pool_init_fn m) q (result_queue m) (inqueue m) (workers m) (closed m) in
      match init_fn with
      | None =>
          Some (Ret (w, g),
                (m', (tr ++ [EvClaim w g]) ++ [EvLog (LogWorkerInitialized w g)]))
      | Some f =>
          match f w g with
          | Ret _ =>
              Some (Ret (w, g),
                    (m', ((tr ++ [EvClaim w g]) ++ [EvInitFn w g])
                           ++ [EvLog (LogWorkerInitialized w g)]))
          | Raise e => Some (Raise e, (m', (tr ++ [EvClaim w g]) ++ [EvInitFn w g]))
          end
      end
  end.
Proof.
  unfold _init_worker, gpu_queue_get, bind; simpl.
  destruct (gpu_queue m) as [|[w g] q]; [done|]; simpl.
  destruct init_fn as [f|]; simpl; [|done].
  by destruct (f w g).
Qed.

Lemma worker_step_trans i w w' :
  worker_step i w = Some w' ↔ worker_trans i w w'.
Proof.
  split.
  - unfold worker_step. destruct w as [[m|] tr]; simpl; [|done].
    destruct (workers m !! i) as [[|wid gid|wid gid j|]|] eqn:Hi; try done.
    + rewrite init_worker_eval.
      destruct (gpu_queue m) as [|[a b] q] eqn:Hq; [done|]; simpl.
      destruct (pool_init_fn m) as [f|] eqn:Hf; [destruct (f a b) eqn:Hfa|];
        intros; simplify_eq; unfold set_worker; simpl; rewrite <- ?app_assoc; simpl;
        rewrite <- Hf; (eapply wt_init; [done..|]);
        unfold init_effect; by rewrite Hf, ?Hfa.
    + destruct (inqueue m) as [|j q] eqn:Hq.
      * destruct (closed m) eqn:Hc; [|done]. intros; simplify_eq.
        unfold set_worker. by apply wt_exit with wid gid.
      * intros; simplify_eq. unfold set_worker; simpl. by apply wt_pick.
    + rewrite run_task_eval. simpl.
      destruct (job_func j wid gid) as [v|e] eqn:Hj;
        [|destruct (is_Exception e) eqn:He; [destruct (job_ignore_errors j)|]];
        rewrite ?He; intros; simplify_eq; unfold set_worker; simpl;
        rewrite <- ?app_assoc; simpl.
      * eapply wt_run; [done|]. unfold run_effect. by rewrite Hj.
      * eapply wt_run; [done|]. unfold run_effect. by rewrite Hj, He.
      * eapply wt_run; [done|]. unfold run_effect. by rewrite Hj, He.
      * rewrite <- (app_nil_r (result_queue m)) at 1.
        eapply wt_run; [done|]. unfold run_effect. by rewrite Hj, He.
  - destruct 1 as [m tr a b q evs s' Hi Hq He|m tr a b j q Hi Hq|m tr a b Hi Hq Hc
                  |m tr a b j vs evs s' Hi He];
      unfold worker_step; simpl; rewrite Hi.
    + rewrite init_worker_eval, Hq. simpl. unfold init_effect in He.
      destruct (pool_init_fn m) as [f|]; [destruct (f a b)|];
        simplify_eq; unfold set_worker; simpl; rewrite <- ?app_assoc; reflexivity.
    + by rewrite Hq.
    + rewrite Hq, Hc. unfold set_worker. by rewrite Hq, Hc.
    + rewrite run_task_eval. simpl. unfold run_effect in He.
      destruct (job_func j a b) as [v|e];
        [|destruct (is_Exception e) eqn:Hex; [destruct (job_ignore_errors j)|]];
        rewrite ?Hex; simplify_eq; unfold set_worker; simpl;
        rewrite <- ?app_assoc, ?app_nil_r; reflexivity.
Qed.

(** ** Termination: every step lowers the measure *)

Lemma sum_list_with_insert {A} (f : A → nat) (l : list A) i x y :
  l !! i = Some x →
  sum_list_with f (<[i := y]> l) + f x = sum_list_with f l + f y.
Proof.
  revert i. induction l as [|a l IH]; intros [|i] Hi; simplify_eq/=; [lia|].
  specialize (IH _ Hi). lia.
Qed.

Lemma init_effect_rank o w g evs s' :
  init_effect o w g = (evs, s') → rank s' ≤ 2.
Proof.
  unfold init_effect. destruct o as [f|]; [destruct (f w g)|];
    intros; simplify_eq/=; lia.
Qed.

Lemma run_effect_rank j w g vs evs s' :
  run_effect j w g = (vs, evs, s') → rank s' ≤ 2.
Proof.
  unfold run_effect. destruct (job_func j w g) as [v|e]; [|destruct (is_Exception e)];
    intros; simplify_eq/=; lia.
Qed.

Lemma worker_trans_mu i w w' : worker_trans i w w' → world_mu w' < world_mu w.
Proof.
  destruct 1 as [m tr a b q evs s' Hi Hq He|m tr a b j q Hi Hq|m tr a b Hi Hq Hc
                |m tr a b j vs evs s' Hi He];
    unfold world_mu, pool_mu; simpl;
    pose proof (λ y, sum_list_with_insert rank _ _ _ y Hi) as Hs.
  - apply init_effect_rank in He. specialize (Hs s'). rewrite Hq. simpl in *. lia.
  - specialize (Hs (WBusy a b j)). rewrite Hq. simpl in *. lia.
  - specialize (Hs WExited). simpl in *. lia.
  - apply run_effect_rank in He. specialize (Hs s'). simpl in *. lia.
Qed.

Lemma resume_mu self g w g' w' sg :
  resume self g w = Some (g', w', sg) →
  gen_mu g' + world_mu w' < gen_mu g + world_mu w ∨ (g = GDone ∧ g' = GDone ∧ w' = w ∧ sg = Some StopIteration).
Proof.
  unfold resume, world_mu. intros H.
  destruct g as [[|t rest] n|[|k]|k|ts|[|t rest]|]; simpl in *.
  - simplify_eq/=. left. lia.
  - destruct (mp w) as [m|] eqn:Hm; [destruct (closed m)|]; simplify_eq/=;
      rewrite ?Hm; unfold pool_mu; simpl; rewrite ?length_app; simpl; left; lia.
  - simplify_eq/=. left. lia.
  - destruct (mp w) as [m|] eqn:Hm; [destruct (result_queue m)|]; simplify_eq/=;
      rewrite ?Hm; unfold pool_mu; simpl; left; lia.
  - simplify_eq/=. left. lia.
  - simplify_eq/=. left. lia.
  - simplify_eq/=. left. lia.
  - destruct (t 0%Z 0%Z); simplify_eq/=; left; lia.
  - simplify_eq/=. by right.
Qed.

Lemma main_step_mu self f w f' w' :
  main_step self f w = Some (f', w') → mu (f', w') < mu (f, w).
Proof.
  unfold main_step, mu. simpl. destruct f as [g acc| | | | | |]; try done.
  - destruct (resume self g w) as [[[g1 w1] sg]|] eqn:Hr; [|done].
    apply resume_mu in Hr as [Hr|(-> & -> & -> & ->)].
    + destruct sg as [[v| |e]|]; intros; simplify_eq/=; lia.
    + intros; simplify_eq/=. lia.
  - unfold world_mu. destruct (mp w) as [m|] eqn:Hm; intros; simplify_eq/=;
      rewrite ?Hm; unfold pool_mu; simpl; lia.
  - unfold world_mu. destruct (mp w) as [m|] eqn:Hm; [|done].
    destruct (forallb is_exited (workers m)); intros; simplify_eq/=.
    rewrite ?Hm. lia.
Qed.

Lemma step_mu self a c c' : step self a c = Some c' → mu c' < mu c.
Proof.
  destruct c as [f w], c' as [f' w'], a as [|i]; simpl.
  - apply main_step_mu.
  - destruct (worker_step i w) as [w1|] eqn:Hw; intros; simplify_eq/=.
    apply worker_step_trans, worker_trans_mu in Hw. unfold mu; simpl. lia.
Qed.

(** ** Runs *)

Lemma enabled_step self c a : a ∈ enabled self c → is_Some (step self a c).
Proof.
  unfold enabled. rewrite list_elem_of_In, filter_In. unfold can_step.
  intros [_ H]. by destruct (step self a c).
Qed.

Lemma enabled_main self c :
  enabled self c = [] → main_step self c.1 c.2 = None.
Proof.
  unfold enabled, actors. simpl. unfold can_step at 1. simpl.
  by destruct (main_step self c.1 c.2).
Qed.

Lemma enabled_worker self c i :
  enabled self c = [] → worker_step i c.2 = None.
Proof.
  intros Hen. destruct (worker_step i c.2) as [w'|] eqn:Hw; [|done]. exfalso.
  assert (Worker i ∈ enabled self c) as Hin; [|by rewrite Hen in Hin; inversion Hin].
  unfold enabled. rewrite list_elem_of_In, filter_In. split.
  - right. apply in_map, in_seq. split; [lia|]. simpl.
    unfold worker_step, n_processes in *. destruct (mp c.2) as [m|]; [|done].
    apply lookup_lt_is_Some. by destruct (workers m !! i).
  - unfold can_step. simpl. by rewrite Hw.
Qed.

Lemma exec_quiescent self sched c :
  mu c ≤ length sched → enabled self (exec self sched c) = [].
Proof.
  revert c. induction sched as [|n sched IH]; intros c Hmu; simpl in *.
  - destruct (enabled self c) as [|a en] eqn:Hen; [done|].
    destruct (enabled_step self c a) as [c' Hc']; [rewrite Hen; left|].
    apply step_mu in Hc'. lia.
  - remember (enabled self c) as en eqn:Hen.
    destruct en as [|a0 en]; [done|].
    destruct (lookup_lt_is_Some_2 (a0 :: en) (n mod length (a0 :: en))) as [a Ha].
    { apply Nat.mod_upper_bound. done. }
    rewrite Ha.
    destruct (enabled_step self c a) as [c' Hc'].
    { rewrite <- Hen. by eapply list_elem_of_lookup_2. }
    rewrite Hc'. apply IH. apply step_mu in Hc'. lia.
Qed.

Lemma exec_invariant self (P : config → Prop) sched c :
  (∀ a c c', P c → step self a c = Some c' → P c') →
  P c → P (exec self sched c).
Proof.
  intros Hstep. revert c. induction sched as [|n sched IH]; intros c Hc; simpl; [done|].
  destruct (enabled self c !! _) as [a|]; [|done].
  destruct (step self a c) as [c'|] eqn:Hs; [|done].
  eauto.
Qed.

(** ** Healthy pools stay healthy *)

Lemma sum_list_with_pos {A} (f : A → nat) (l : list A) :
  0 < sum_list_with f l → ∃ i x, l !! i = Some x ∧ 0 < f x.
Proof.
  induction l as [|a l IH]; simpl; [lia|]. intros H.
  destruct (f a) eqn:Hfa.
  - destruct IH as (i & x & Hi & Hx); [lia|]. by exists (S i), x.
  - exists 0, a. split; [done|lia].
Qed.

Lemma sum_list_with_lookup {A} (f : A → nat) (l : list A) i x :
  l !! i = Some x → f x ≤ sum_list_with f l.
Proof. intros H. apply sum_list_with_in. by eapply list_elem_of_lookup_2. Qed.

Lemma init_effect_ok o w g evs s' :
  init_succeeds o → init_effect o w g = (evs, s') → s' = WReady w g.
Proof.
  unfold init_succeeds, init_effect. destruct o as [f|]; [|by intros; simplify_eq].
  intros Hf. rewrite Hf. by intros; simplify_eq.
Qed.

Lemma run_effect_ok j w g vs evs s' :
  catchable (job_func j) → run_effect j w g = (vs, evs, s') →
  s' = WReady w g ∧ length vs = 1.
Proof.
  unfold run_effect. intros Hc. specialize (Hc w g).
  destruct (job_func j w g) as [v|e]; [|rewrite Hc]; by intros; simplify_eq.
Qed.

Lemma worker_trans_ok i m tr w' :
  pool_ok m → worker_trans i (World (Some m) tr) w' →
  ∃ m', mp w' = Some m' ∧ pool_ok m' ∧
        pool_init_fn m' = pool_init_fn m ∧
        closed m' = closed m ∧
        length (workers m') = length (workers m) ∧
        supply m' = supply m ∧
        (closed m = false →
         sum_list_with exited (workers m') = sum_list_with exited (workers m)).
Proof.
  intros [Hinit Hsp Hq Hb].
  inversion 1 as [? ? a b q evs s' Hi Hg He|? ? a b j q Hi Hj|? ? a b Hi Hj Hc
                 |? ? a b j vs evs s' Hi He]; subst;
    eexists; (split; [done|]); unfold supply; simpl; rewrite ?length_insert;
    pose proof (λ f y, sum_list_with_insert f _ _ _ y Hi) as Hs;
    pose proof (Hs spawned) as Hs1; pose proof (Hs busy) as Hs2;
    pose proof (Hs exited) as Hs3.
  - apply (init_effect_ok _ _ _ _ _ Hinit) in He as ->.
    specialize (Hs1 (WReady a b)). specialize (Hs2 (WReady a b)).
    specialize (Hs3 (WReady a b)). rewrite Hg in Hsp. simpl in *.
    split; [split; simpl; [done|lia|done|by apply Forall_insert]|].
    repeat split; try done; lia.
  - specialize (Hs1 (WBusy a b j)). specialize (Hs2 (WBusy a b j)).
    specialize (Hs3 (WBusy a b j)). rewrite Hj in *. simpl in *.
    inversion Hq; subst.
    split; [split; simpl; [done|lia|done|by apply Forall_insert]|].
    repeat split; try done; lia.
  - specialize (Hs1 WExited). specialize (Hs2 WExited). simpl in *.
    split; [split; simpl; [done|lia|done|by apply Forall_insert]|].
    repeat split; try done; try lia. congruence.
  - pose proof (Forall_lookup_1 _ _ _ _ Hb Hi) as Hjob. simpl in Hjob.
    apply (run_effect_ok _ _ _ _ _ _ Hjob) in He as [-> Hlen].
    specialize (Hs1 (WReady a b)). specialize (Hs2 (WReady a b)).
    specialize (Hs3 (WReady a b)). rewrite ?length_app. simpl in *.
    split; [split; simpl; [done|lia|done|by apply Forall_insert]|].
    repeat split; try done; lia.
Qed.

Lemma worker_trans_serving i m tr w' :
  serving m → worker_trans i (World (Some m) tr) w' →
  ∃ m', mp w' = Some m' ∧ serving m' ∧ supply m' = supply m ∧
        pool_init_fn m' = pool_init_fn m.
Proof.
  intros [Hok Hopen Hsome Halive] Hw.
  destruct (worker_trans_ok _ _ _ _ Hok Hw) as (m' & Hm' & Hok' & Hi & Hc & Hl & Hs & He).
  exists m'. split; [done|]. split; [|done].
  split; [done|congruence|lia|by rewrite He].
Qed.

(** A serving pool with work to do has a process that can move. *)
Lemma serving_progress m tr :
  serving m → 0 < length (inqueue m) + sum_list_with busy (workers m) →
  ∃ i w', worker_step i (World (Some m) tr) = Some w'.
Proof.
  intros [[Hinit Hsp Hq Hb] Hopen Hsome Halive] Hwork.
  assert (∀ i s, workers m !! i = Some s →
                 (s = WSpawned → gpu_queue m ≠ []) ∧ s ≠ WExited) as Hst.
  { intros i s Hi. split; intros ->.
    - apply (sum_list_with_lookup spawned) in Hi. simpl in Hi.
      destruct (gpu_queue m); simpl in *; [lia|done].
    - apply (sum_list_with_lookup exited) in Hi. simpl in Hi. lia. }
  destruct (decide (0 < sum_list_with busy (workers m))) as [Hbusy|Hidle].
  - apply sum_list_with_pos in Hbusy as (i & s & Hi & Hs).
    destruct s as [|a b|a b j|]; simpl in Hs; try lia.
    exists i. destruct (run_effect j a b) as [[vs evs] s'] eqn:He.
    eexists. apply worker_step_trans. by eapply wt_run.
  - destruct (inqueue m) as [|j q] eqn:Hj; simpl in *; [lia|].
    destruct (lookup_lt_is_Some_2 (workers m) 0 Hsome) as [s Hi].
    destruct (Hst _ _ Hi) as [Hs1 Hs2].
    exists 0. destruct s as [|a b|a b j'|]; [| | |done].
    + destruct (gpu_queue m) as [|[a b] g] eqn:Hg; [by destruct Hs1|].
      destruct (init_effect (pool_init_fn m) a b) as [evs s'] eqn:He.
      eexists. apply worker_step_trans. by eapply wt_init.
    + eexists. apply worker_step_trans. by eapply wt_pick.
    + destruct (run_effect j' a b) as [[vs evs] s'] eqn:He.
      eexists. apply worker_step_trans. by eapply wt_run.
Qed.

(** ** A dispatch on a serving pool *)

Lemma serving_queues m rq inq :
  serving m → Forall (λ j, catchable (job_func j)) inq →
  serving (MP (pool_init_fn m) (gpu_queue m) rq inq (workers m) (closed m)).
Proof. intros [[] ? ? ?] Hq. by repeat split. Qed.

Lemma dispatch_inv_step self N a c c' :
  dispatch_inv N c → step self a c = Some c' → dispatch_inv N c'.
Proof.
  destruct c as [f w], c' as [f' w'].
  intros (m & Hm & Hsv & Hf) Hstep. simpl in *. destruct a as [|i]; simpl in *.
  - destruct f as [g acc| | | | | |]; try done. destruct Hf as (Hg & Hn & Hs).
    unfold main_step, resume in Hstep. rewrite Hm in Hstep.
    pose proof (sv_open _ Hsv) as Hopen. pose proof (sv_ok _ Hsv) as Hok.
    destruct g as [[|t rest] n|[|k]|k|ts|[|t rest]|]; simpl in *;
      try done; rewrite ?Hopen in Hstep.
    + simplify_eq. exists m. simpl. split_and!; try done; lia.
    + simplify_eq. eexists. simpl. split; [done|].
      inversion Hg; subst. split.
      { rewrite <- Hopen. apply serving_queues; [done|]. apply Forall_app. split; [apply Hok|].
        by repeat constructor. }
      unfold supply in *. simpl. rewrite length_app. simpl.
      split_and!; try done; lia.
    + simplify_eq. exists m. simpl. by split_and!.
    + destruct (result_queue m) as [|v q] eqn:Hrq; [done|]. simplify_eq.
      eexists. simpl. split; [done|]. split.
      { rewrite <- Hopen. apply serving_queues; [done|]. apply Hok. }
      unfold supply in *. rewrite Hrq in Hs. rewrite length_app. simpl in *.
      split_and!; try done; lia.
    + simplify_eq. exists m. simpl. by split_and!.
  - destruct (worker_step i w) as [w1|] eqn:Hw; simplify_eq/=.
    destruct w as [o tr]. simpl in *. subst o.
    apply worker_step_trans in Hw.
    destruct (worker_trans_serving _ _ _ _ Hsv Hw) as (m' & Hm' & Hsv' & Hsup & _).
    exists m'. split_and!; try done.
    destruct f'; try done. by rewrite Hsup.
Qed.

Lemma dispatch_inv_quiescent self N c :
  dispatch_inv N c → enabled self c = [] →
  ∃ l, c.1 = FList l GDone ∧ length l = N.
Proof.
  destruct c as [f [o tr]]. intros (m & Hm & Hsv & Hf) Hen. simpl in *. subst o.
  destruct f as [g acc|l g| | | | |]; try done.
  - exfalso. destruct Hf as (Hg & Hn & Hs).
    pose proof (enabled_main _ _ Hen) as Hmain. simpl in Hmain.
    pose proof (sv_open _ Hsv) as Hopen.
    destruct g as [[|t rest] n|[|k]|k|ts|[|t rest]|]; simpl in *;
      rewrite ?Hopen in Hmain; try done.
    destruct (result_queue m) as [|v q] eqn:Hrq; [|done].
    destruct (serving_progress m tr Hsv) as (i & w' & Hw).
    { unfold supply in Hs. rewrite Hrq in Hs. simpl in Hs. lia. }
    pose proof (enabled_worker _ _ i Hen) as Hnone. simpl in Hnone. congruence.
  - destruct Hf as [<- ->]. by exists l.
Qed.

Lemma dispatch_returns self tasks w sched :
  serving_world w → Forall catchable tasks →
  mu (consume (_call_async self tasks), w) ≤ length sched →
  ∃ l w', exec self sched (consume (_call_async self tasks), w) = (FList l GDone, w') ∧
          length l = length tasks ∧ serving_world w'.
Proof.
  intros (m & Hm & Hsv) Hts Hmu.
  pose proof (exec_quiescent self sched _ Hmu) as Hq.
  assert (dispatch_inv (length tasks) (exec self sched (consume (_call_async self tasks), w)))
    as Hinv.
  { apply exec_invariant; [intros; by eapply dispatch_inv_step|].
    exists m. simpl. split_and!; try done; lia. }
  destruct (dispatch_inv_quiescent _ _ _ Hinv Hq) as (l & Hl & Hlen).
  destruct (exec self sched _) as [f w']. simpl in *. subst f.
  exists l, w'. split_and!; try done.
  destruct Hinv as (m' & Hm' & Hsv' & _). by exists m'.
Qed.

(** ** The identity queue built by [__init__] *)

Lemma foldl_snoc_fmap {A B} (f : A → B) (l : list A) (q : list B) :
  foldl (λ q x, q ++ [f x]) q l = q ++ (f <$> l).
Proof.
  revert q. induction l as [|a l IH]; intros q; simpl; [by rewrite app_nil_r|].
  rewrite IH. by rewrite <- app_assoc.
Qed.

Lemma foldl_app_bind {A B} (f : A → list B) (l : list A) (q : list B) :
  foldl (λ q x, q ++ f x) q l = q ++ (l ≫= f).
Proof.
  revert q. induction l as [|a l IH]; intros q; simpl; [by rewrite app_nil_r|].
  rewrite IH. by rewrite <- app_assoc.
Qed.

Lemma foldl_pointwise {A B} (f g : B → A → B) (l : list A) (q : B) :
  (∀ q x, f q x = g q x) → foldl f q l = foldl g q l.
Proof.
  intros Hfg. revert q. induction l as [|a l IH]; intros q; simpl; [done|].
  by rewrite Hfg, IH.
Qed.

Lemma fill_gpu_queue_identities D S : fill_gpu_queue D S = identities D S.
Proof.
  unfold fill_gpu_queue, identities.
  rewrite <- (app_nil_l (_ ≫= _)), <- foldl_app_bind.
  apply foldl_pointwise. intros q d. apply foldl_snoc_fmap.
Qed.

Lemma elem_of_identities D S s d :
  (s, d) ∈ identities D S ↔
  ∃ local, (0 ≤ d < D ∧ 0 ≤ local < S ∧ s = d * S + local)%Z.
Proof.
  unfold identities, range. rewrite list_elem_of_bind. split.
  - intros (d' & Hin & Hd). apply list_elem_of_fmap in Hin as (l & Heq & Hl).
    apply elem_of_seqZ in Hd, Hl. simplify_eq. exists l. lia.
  - intros (l & Hd & Hl & ->). exists d. split.
    + apply list_elem_of_fmap. exists l. split; [done|]. apply elem_of_seqZ. lia.
    + apply elem_of_seqZ. lia.
Qed.

Lemma NoDup_identities D S : NoDup (identities D S).
Proof.
  unfold identities, range. apply NoDup_bind.
  - intros d1 d2 [s d] _ _ H1 H2.
    apply list_elem_of_fmap in H1 as (l1 & ? & _), H2 as (l2 & ? & _). congruence.
  - intros d _. apply NoDup_fmap_2; [|apply NoDup_seqZ].
    intros l1 l2 ?. simplify_eq. lia.
  - apply NoDup_seqZ.
Qed.

Lemma length_bind_const {A B} (f : A → list B) (l : list A) n :
  (∀ x, length (f x) = n) → length (l ≫= f) = length l * n.
Proof.
  intros Hf. induction l as [|a l IH]; [done|].
  rewrite bind_cons, length_app, Hf, IH. simpl. lia.
Qed.

Lemma length_identities D S :
  (0 ≤ D)%Z → (0 ≤ S)%Z → length (identities D S) = Z.to_nat (D * S).
Proof.
  intros HD HS. unfold identities, range.
  rewrite (length_bind_const _ _ (Z.to_nat S)).
  - rewrite length_seqZ. lia.
  - intros d. by rewrite length_fmap, length_seqZ.
Qed.

(** The identity at position [k] of the queue: [worker_id] is [k] itself. *)
Lemma lookup_identities_from W n j k s d :
  (1 ≤ W)%Z → (0 ≤ j)%Z →
  (seqZ j (Z.of_nat n) ≫= (λ d0, (λ l, (d0 * W + l, d0)%Z) <$> seqZ 0 W)) !! k
    = Some (s, d) →
  s = (j * W + Z.of_nat k)%Z ∧ d = ((j * W + Z.of_nat k) / W)%Z.
Proof.
  intros HW. revert j k. induction n as [|n IH]; intros j k Hj; [done|].
  rewrite (seqZ_cons j) by lia. rewrite bind_cons.
  replace (Z.pred (Z.of_nat (S n))) with (Z.of_nat n) by lia.
  intros Hk. destruct (decide (k < Z.to_nat W)) as [Hlt|Hge].
  - rewrite lookup_app_l in Hk by (by rewrite length_fmap, length_seqZ).
    rewrite list_lookup_fmap in Hk.
    destruct (seqZ 0 W !! k) as [l|] eqn:Hl; simplify_eq/=.
    apply lookup_seqZ in Hl as [-> Hl]. split; [lia|].
    apply Z.div_unique with (Z.of_nat k); lia.
  - rewrite lookup_app_r in Hk by (rewrite length_fmap, length_seqZ; lia).
    rewrite length_fmap, length_seqZ in Hk.
    apply IH in Hk as [-> ->]; [|lia].
    replace (Z.succ j * W + Z.of_nat (k - Z.to_nat W))%Z
      with (j * W + Z.of_nat k)%Z by lia.
    done.
Qed.

Lemma lookup_identities D W k s d :
  (1 ≤ W)%Z → identities D W !! k = Some (s, d) →
  s = Z.of_nat k ∧ d = (Z.of_nat k / W)%Z.
Proof.
  intros HW. unfold identities, range. intros Hk.
  destruct (decide (D ≤ 0)%Z) as [HD|HD].
  - rewrite (seqZ_nil 0 D) in Hk by lia. inversion Hk.
  - replace D with (Z.of_nat (Z.to_nat D)) in Hk by lia.
    apply lookup_identities_from in Hk; [|done..]. by rewrite Z.mul_0_l, Z.add_0_l in Hk.
Qed.

(** ** What each actor adds to the trace *)

Lemma claimed_app tr1 tr2 : claimed (tr1 ++ tr2) = claimed tr1 ++ claimed tr2.
Proof. apply omap_app. Qed.

Lemma inited_app tr1 tr2 : inited (tr1 ++ tr2) = inited tr1 ++ inited tr2.
Proof. apply omap_app. Qed.

Lemma count_app p tr1 tr2 : count p (tr1 ++ tr2) = count p tr1 + count p tr2.
Proof. unfold count. by rewrite List.filter_app, length_app. Qed.

Lemma coordinator_events evs :
  Forall coordinator_event evs →
  claimed evs = [] ∧ inited evs = [] ∧ count is_create evs = 0.
Proof.
  induction 1 as [|ev evs Hev _ (IH1 & IH2 & IH3)]; [done|].
  unfold count in *. by destruct ev; simpl in *.
Qed.

Lemma dispatch_events evs :
  Forall dispatch_event evs →
  Forall coordinator_event evs ∧ count is_close evs = 0 ∧ count is_join evs = 0.
Proof.
  induction 1 as [|ev evs Hev _ (IH1 & IH2 & IH3)]; [done|].
  unfold count in *. by destruct ev; simpl in *; split_and!; try constructor.
Qed.

Lemma when_dispatch b evs : Forall dispatch_event evs → Forall dispatch_event (when b evs).
Proof. by destruct b. Qed.

Ltac events :=
  repeat first [ done
               | apply Forall_nil
               | apply Forall_cons; split
               | apply Forall_app; split
               | apply when_dispatch ].

Lemma resume_effect self g w g' w' sg :
  resume self g w = Some (g', w', sg) →
  ∃ evs, trace w' = trace w ++ evs ∧ Forall dispatch_event evs ∧
         pool_same (mp w) (mp w') ∧
         (closed <$> mp w') = (closed <$> mp w).
Proof.
  assert (pool_same (mp w) (mp w)) as Hrefl.
  { unfold pool_same. by destruct (mp w). }
  unfold resume. intros H.
  destruct g as [[|t rest] n|[|k]|k|ts|[|t rest]|]; simpl in *.
  - simplify_eq. eexists. split; [done|]. split_and!; try done. events.
  - destruct (mp w) as [m|] eqn:Hm; [destruct (closed m) eqn:Hc|]; simplify_eq/=;
      exists []; rewrite ?app_nil_r, ?Hm; simpl; rewrite ?Hc; by split_and!.
  - simplify_eq. eexists. split; [done|]. split_and!; try done. events.
  - destruct (mp w) as [m|] eqn:Hm; [destruct (result_queue m)|]; simplify_eq/=;
      exists []; rewrite ?app_nil_r, ?Hm; simpl; by split_and!.
  - simplify_eq. eexists. split; [done|]. split_and!; try done. events.
  - simplify_eq. eexists. split; [done|]. split_and!; try done. events.
  - simplify_eq. exists []. rewrite app_nil_r. by split_and!.
  - destruct (t 0%Z 0%Z); simplify_eq/=; (eexists; split; [done|]);
      split_and!; try done; events.
  - simplify_eq. exists []. rewrite app_nil_r. by split_and!.
Qed.

Lemma main_step_effect self f w f' w' :
  main_step self f w = Some (f', w') →
  ∃ evs, trace w' = trace w ++ evs ∧ Forall coordinator_event evs ∧
         pool_same (mp w) (mp w').
Proof.
  assert (pool_same (mp w) (mp w)) as Hrefl.
  { unfold pool_same. by destruct (mp w). }
  unfold main_step. destruct f as [g acc| | | | | |]; try done.
  - destruct (resume self g w) as [[[g1 w1] sg]|] eqn:Hr; [|done].
    apply resume_effect in Hr as (evs & Htr & Hev & Hsame & _).
    apply dispatch_events in Hev as [Hev _].
    intros H. exists evs.
    destruct sg as [[v| |e]|]; by simplify_eq.
  - destruct (mp w) as [m|] eqn:Hm; intros; simplify_eq/=.
    + eexists. split; [done|]. rewrite ?Hm. by split; [repeat constructor|].
    + exists []. rewrite app_nil_r, ?Hm. by split_and!.
  - destruct (mp w) as [m|] eqn:Hm; [|done].
    destruct (forallb is_exited (workers m)); intros; simplify_eq/=.
    eexists. split; [done|]. rewrite ?Hm. by split; [repeat constructor|].
Qed.

Lemma init_effect_events o w g evs s' :
  init_effect o w g = (evs, s') →
  claimed evs = [] ∧ count is_create evs = 0 ∧ spawned s' ≤ 1 ∧
  inited evs = match o with Some _ => [(w, g)] | None => [] end.
Proof.
  unfold init_effect. destruct o as [f|]; [destruct (f w g)|];
    intros; simplify_eq; unfold count; simpl; split_and!; done || lia.
Qed.

Lemma run_effect_events j w g vs evs s' :
  run_effect j w g = (vs, evs, s') →
  claimed evs = [] ∧ count is_create evs = 0 ∧ inited evs = [] ∧
  count is_close evs = 0 ∧ count is_join evs = 0.
Proof.
  unfold run_effect. destruct (job_func j w g) as [v|e]; [|destruct (is_Exception e)];
    intros; by simplify_eq.
Qed.

(** ** The hand-out of identities *)

Lemma claim_inv_step self o ids a c c' :
  claim_inv o ids c.2 → step self a c = Some c' → claim_inv o ids c'.2.
Proof.
  destruct c as [f w], c' as [f' w']. simpl.
  intros (m & Hm & Ho & Hcl & Hin & Hsp & Hcr) Hstep.
  destruct a as [|i]; simpl in *.
  - apply main_step_effect in Hstep as (evs & Htr & Hev & Hsame).
    apply coordinator_events in Hev as (Hc1 & Hc2 & Hc3).
    rewrite Hm in Hsame. unfold pool_same in Hsame.
    destruct (mp w') as [m'|] eqn:Hm'; [|done]. destruct Hsame as (Hs1 & Hs2 & Hs3).
    exists m'. rewrite Htr, claimed_app, inited_app, count_app, Hc1, Hc2, Hc3.
    rewrite !app_nil_r, Hs1, Hs2, Hs3, Nat.add_0_r. by split_and!.
  - destruct (worker_step i w) as [w1|] eqn:Hw; simplify_eq/=.
    destruct w as [ow tr]. simpl in *. subst ow.
    apply worker_step_trans in Hw.
    inversion Hw as [? ? a b q evs s' Hi Hg He|? ? a b j q Hi Hj|? ? a b Hi Hj Hc
                    |? ? a b j vs evs s' Hi He]; subst;
      eexists; (split; [done|]); simpl;
      pose proof (λ y, sum_list_with_insert spawned _ _ _ y Hi) as Hs.
    + apply init_effect_events in He as (He1 & He2 & He3 & He4).
      specialize (Hs s'). rewrite Hg in *. simpl in *.
      rewrite (claimed_app _ (_ :: _)), (inited_app _ (_ :: _)), (count_app _ _ (_ :: _)).
      unfold count in *. simpl. rewrite He1, He4. fold (count is_create evs).
      split_and!; try done.
      * by rewrite <- app_assoc.
      * rewrite Hin. by destruct (pool_init_fn m); rewrite ?app_nil_r.
      * lia.
      * unfold count in *. lia.
    + specialize (Hs (WBusy a b j)). simpl in *. split_and!; try done. lia.
    + specialize (Hs WExited). simpl in *. split_and!; try done. lia.
    + apply run_effect_events in He as (He1 & He2 & He3 & _).
      specialize (Hs s'). simpl in *.
      rewrite claimed_app, inited_app, count_app, He1, He2, He3, !app_nil_r.
      split_and!; try done; lia.
Qed.

Lemma claim_inv_quiescent self o ids c :
  claim_inv o ids c.2 → enabled self c = [] → claimed (trace c.2) = ids.
Proof.
  destruct c as [f [ow tr]]. simpl.
  intros (m & Hm & Ho & Hcl & Hin & Hsp & Hcr) Hen. simpl in *. subst ow.
  destruct (gpu_queue m) as [|[a b] q] eqn:Hg; [by rewrite app_nil_r in Hcl|].
  exfalso. simpl in Hsp.
  destruct (sum_list_with_pos spawned (workers m)) as (i & s & Hi & Hs); [lia|].
  destruct s; simpl in Hs; try lia.
  destruct (init_effect (pool_init_fn m) a b) as [evs s'] eqn:He.
  pose proof (wt_init i m tr a b q evs s' Hi Hg He) as Hw.
  apply worker_step_trans in Hw.
  pose proof (enabled_worker _ _ i Hen) as Hnone. simpl in Hnone. congruence.
Qed.

(** ** The world after construction *)

Lemma init_async D W o rg pb ign :
  (1 ≤ D)%Z → (1 ≤ W)%Z →
  __init__ D W o rg pb ign =
  (Ret (Self false D W rg pb ign),
   World (Some (MP o (identities D W) [] [] (replicate (Z.to_nat (D * W)) WSpawned) false))
         [EvPoolCreate (D * W)]).
Proof.
  intros HD HW. unfold __init__. simpl.
  destruct (Z.eqb_spec D 0) as [->|_]; [lia|]. simpl.
  destruct (Z.ltb_spec (D * W) 1) as [Hlt|_]; [nia|].
  by rewrite fill_gpu_queue_identities.
Qed.

Lemma sum_list_with_replicate {A} (f : A → nat) n x :
  sum_list_with f (replicate n x) = n * f x.
Proof. induction n as [|n IH]; simpl; [done|]. rewrite IH. lia. Qed.

Lemma Forall_replicate_intro {A} (P : A → Prop) n x : P x → Forall P (replicate n x).
Proof. intros Hx. induction n; simpl; by constructor. Qed.

Lemma init_claim_inv D W o :
  (1 ≤ D)%Z → (1 ≤ W)%Z →
  claim_inv o (identities D W)
    (World (Some (MP o (identities D W) [] [] (replicate (Z.to_nat (D * W)) WSpawned) false))
           [EvPoolCreate (D * W)]).
Proof.
  intros HD HW. eexists. split; [done|]. simpl.
  rewrite sum_list_with_replicate, length_identities by lia. simpl.
  split_and!; try done; [by destruct o|lia].
Qed.

Lemma init_serving D W o :
  (1 ≤ D)%Z → (1 ≤ W)%Z → init_succeeds o →
  serving (MP o (identities D W) [] [] (replicate (Z.to_nat (D * W)) WSpawned) false).
Proof.
  intros HD HW Ho. split; [split|..]; simpl; try done.
  - rewrite sum_list_with_replicate, length_identities by lia. simpl. lia.
  - by apply Forall_replicate_intro.
  - rewrite length_replicate. nia.
  - rewrite sum_list_with_replicate. simpl. lia.
Qed.

(** ** Debug mode: the coordinator is the only actor *)

Lemma exec_alone self n sched f tr :
  exec self (n :: sched) (f, World None tr) =
  match main_step self f (World None tr) with
  | Some c' => exec self sched c'
  | None => (f, World None tr)
  end.
Proof.
  simpl. unfold enabled, actors, can_step. simpl.
  destruct (main_step self f (World None tr)) as [c'|] eqn:Hs; simpl; [|done].
  by rewrite Hs.
Qed.

Lemma exec_stuck self sched f tr :
  main_step self f (World None tr) = None →
  exec self sched (f, World None tr) = (f, World None tr).
Proof.
  intros Hs. destruct sched as [|n sched]; [done|]. by rewrite exec_alone, Hs.
Qed.

Lemma sync_loop_returns self rest vs acc tr sched :
  Forall2 (λ t v, t 0%Z 0%Z = Ret v) rest vs →
  length rest < length sched →
  exec self sched (FComp (SLoop rest) acc, World None tr) =
  (FList (acc ++ vs) GDone, World None (tr ++ call_events rest)).
Proof.
  intros Hvs. revert acc tr sched.
  induction Hvs as [|t v rest vs Ht _ IH]; intros acc tr [|n sched] Hlen;
    simpl in Hlen; try lia; rewrite exec_alone; simpl.
  - rewrite !app_nil_r. by apply exec_stuck.
  - rewrite Ht. rewrite IH by lia.
    unfold call_events. simpl. by rewrite <- !app_assoc.
Qed.

Lemma sync_loop_raises self pre vs t e post acc tr sched :
  Forall2 (λ t v, t 0%Z 0%Z = Ret v) pre vs →
  t 0%Z 0%Z = Raise e →
  length pre < length sched →
  exec self sched (FComp (SLoop (pre ++ t :: post)) acc, World None tr) =
  (FExc e GDone, World None (tr ++ call_events (pre ++ [t]))).
Proof.
  intros Hvs He. revert acc tr sched.
  induction Hvs as [|t' v pre vs Ht _ IH]; intros acc tr [|n sched] Hlen;
    simpl in Hlen; try lia; rewrite exec_alone; simpl.
  - rewrite He. by apply exec_stuck.
  - rewrite Ht. rewrite IH by lia.
    unfold call_events. simpl. by rewrite <- !app_assoc.
Qed.

(** ** Properties of the coordinator's frame alone *)

Lemma exec_frames self (P : frame → Prop) sched f w :
  (∀ f w f' w', P f → main_step self f w = Some (f', w') → P f') →
  P f → P (exec self sched (f, w)).1.
Proof.
  intros Hmain Hf. apply (exec_invariant self (λ c, P c.1)); [|done].
  intros [|i] [f1 w1] [f2 w2] HP Hs; simpl in *; [by eapply Hmain|].
  destruct (worker_step i w1); by simplify_eq/=.
Qed.

Lemma main_step_drained self f w f' w' :
  main_step self f w = Some (f', w') → drained f'.
Proof.
  unfold main_step. destruct f as [g acc| | | | | |]; try done.
  - unfold resume.
    destruct g as [[|t rest] n|[|k]|k|ts|[|t rest]|]; simpl;
      repeat case_match; intros; by simplify_eq/=.
  - destruct (mp w); intros; by simplify_eq/=.
  - destruct (mp w) as [m|]; [|done]. destruct (forallb _ _); intros; by simplify_eq/=.
Qed.

Lemma exec_drained self sched f w : drained f → drained (exec self sched (f, w)).1.
Proof.
  intros Hf. apply (exec_frames self drained); [|done].
  intros. by eapply main_step_drained.
Qed.

Lemma spent_step self f w f' w' :
  spent f → main_step self f w = Some (f', w') → spent f' ∧ w' = w.
Proof. intros [->| ->] H; simplify_eq/=. split; [by right|done]. Qed.

Lemma spent_returns self f w sched :
  spent f → mu (f, w) ≤ length sched →
  (exec self sched (f, w)).1 = FList [] GDone.
Proof.
  intros Hf Hmu. pose proof (exec_quiescent self sched _ Hmu) as Hq.
  assert (spent (exec self sched (f, w)).1) as [Hs|Hs]; [|by apply enabled_main in Hq;
    destruct (exec self sched (f, w)) as [f1 w1]; simpl in *; subst|done].
  apply exec_frames; [|done]. intros ? ? ? ? ? Hs. by eapply spent_step.
Qed.

Lemma empty_dispatch_step self f w f' w' :
  empty_dispatch f → main_step self f w = Some (f', w') →
  empty_dispatch f' ∧ mp w' = mp w.
Proof.
  intros [->|[->|[->|[->| ->]]]] H; simplify_eq/=; split; try done;
    unfold empty_dispatch; auto.
Qed.

Lemma empty_dispatch_enabled self f w :
  empty_dispatch f → f = FList [] GDone ∨ is_Some (main_step self f w).
Proof. intros [->|[->|[->|[->| ->]]]]; simpl; eauto. Qed.

Lemma empty_dispatch_returns self f w sched :
  empty_dispatch f → mu (f, w) ≤ length sched →
  (exec self sched (f, w)).1 = FList [] GDone.
Proof.
  intros Hf Hmu. pose proof (exec_quiescent self sched _ Hmu) as Hq.
  assert (empty_dispatch (exec self sched (f, w)).1) as He.
  { apply exec_frames; [|done]. intros ? ? ? ? ? Hs. by eapply empty_dispatch_step. }
  apply enabled_main in Hq.
  destruct (empty_dispatch_enabled self _ (exec self sched (f, w)).2 He) as [|[c Hc]];
    [done|congruence].
Qed.

(** ** Between construction and disposal *)

Lemma worker_trans_trace i w w' :
  worker_trans i w w' →
  ∃ evs, trace w' = trace w ++ evs ∧ count is_close evs = 0 ∧ count is_join evs = 0.
Proof.
  destruct 1 as [m tr a b q evs s' Hi Hq He|m tr a b j q Hi Hq|m tr a b Hi Hq Hc
                |m tr a b j vs evs s' Hi He]; simpl.
  - eexists. split; [done|]. unfold init_effect in He.
    destruct (pool_init_fn m) as [f|]; [destruct (f a b)|]; by simplify_eq.
  - exists []. by rewrite app_nil_r.
  - exists []. by rewrite app_nil_r.
  - eexists. split; [done|]. by apply run_effect_events in He as (_ & _ & _ & ? & ?).
Qed.

Lemma untorn_step self a c c' :
  dispatching c.1 → untorn c.2 → step self a c = Some c' →
  dispatching c'.1 ∧ untorn c'.2.
Proof.
  destruct c as [f w], c' as [f' w']. simpl. intros Hf [Hcl Hjn] Hstep.
  destruct a as [|i]; simpl in *.
  - destruct f as [g acc| | | | | |]; try done. simpl in Hstep.
    destruct (resume self g w) as [[[g1 w1] sg]|] eqn:Hr; [|done].
    apply resume_effect in Hr as (evs & Htr & Hev & _ & _).
    apply dispatch_events in Hev as (_ & He1 & He2).
    assert (untorn w1) by (unfold untorn; by rewrite Htr, !count_app, He1, He2, Hcl, Hjn).
    destruct sg as [[v| |e]|]; by simplify_eq.
  - destruct (worker_step i w) as [w1|] eqn:Hws; simplify_eq/=. split; [done|].
    apply worker_step_trans, worker_trans_trace in Hws as (evs & Htr & He1 & He2).
    unfold untorn. by rewrite Htr, !count_app, He1, He2, Hcl, Hjn.
Qed.

Lemma serving_step self a c c' :
  frame_ok c.1 → serving_world c.2 → step self a c = Some c' →
  frame_ok c'.1 ∧ serving_world c'.2.
Proof.
  destruct c as [f w], c' as [f' w']. simpl. intros Hf (m & Hm & Hsv) Hstep.
  destruct a as [|i]; simpl in *.
  - destruct f as [g acc| | | | | |]; try done. simpl in Hstep.
    pose proof (sv_open _ Hsv) as Hopen. pose proof (sv_ok _ Hsv) as Hok.
    unfold resume, serving_world in *. rewrite Hm in Hstep.
    destruct g as [[|t rest] n|[|k]|k|ts|[|t rest]|]; simpl in *;
      rewrite ?Hopen in Hstep.
    + simplify_eq. split; [done|]. by exists m.
    + simplify_eq. inversion Hf; subst. split; [done|]. eexists. split; [done|].
      rewrite <- Hopen. apply serving_queues; [done|].
      apply Forall_app. split; [apply Hok|]. by repeat constructor.
    + simplify_eq. split; [done|]. by exists m.
    + destruct (result_queue m) as [|v q]; simplify_eq. split; [done|].
      eexists. split; [done|]. rewrite <- Hopen. apply serving_queues; [done|]. apply Hok.
    + simplify_eq. split; [done|]. by exists m.
    + simplify_eq. split; [done|]. by exists m.
    + simplify_eq. split; [done|]. by exists m.
    + destruct (t 0%Z 0%Z); simplify_eq; (split; [done|]); by exists m.
    + simplify_eq. split; [done|]. by exists m.
  - destruct (worker_step i w) as [w1|] eqn:Hws; simplify_eq/=. split; [done|].
    destruct w as [ow tr]. simpl in *. subst ow. apply worker_step_trans in Hws.
    destruct (worker_trans_serving _ _ _ _ Hsv Hws) as (m' & Hm' & Hsv' & _).
    by exists m'.
Qed.

Lemma collect_call_ok self tasks :
  Forall catchable tasks → frame_ok (collect (__call__ self tasks)).
Proof.
  intros Hts. unfold __call__, _call_async, _call_sync.
  by destruct (return_generator self), (debug_mode self).
Qed.

Lemma collect_call_dispatching self tasks : dispatching (collect (__call__ self tasks)).
Proof.
  unfold __call__. by destruct (return_generator self), (debug_mode self).
Qed.

(** Whatever the tasks and the schedules, dispatches neither tear the pool
    down nor disturb the hand-out of identities. *)
Lemma session_safe self o ids calls w :
  untorn w → claim_inv o ids w →
  untorn (session self calls w) ∧ claim_inv o ids (session self calls w).
Proof.
  revert w. induction calls as [|[tasks sched] calls IH]; intros w Hw Hc; simpl; [done|].
  pose proof (exec_invariant self
    (λ c, dispatching c.1 ∧ untorn c.2 ∧ claim_inv o ids c.2) sched
    (collect (__call__ self tasks), w)) as Hinv.
  destruct Hinv as (_ & Hw' & Hc').
  - intros a c c' (Hf1 & Hw1 & Hc1) Hs.
    destruct (untorn_step _ _ _ _ Hf1 Hw1 Hs). split_and!; try done.
    by eapply claim_inv_step.
  - split_and!; try done. apply collect_call_dispatching.
  - by apply IH.
Qed.

(** Dispatches of catchable tasks leave a serving pool serving. *)
Lemma session_serving self calls w :
  Forall (λ c, Forall catchable c.1) calls →
  serving_world w → serving_world (session self calls w).
Proof.
  intros Hcalls. revert w.
  induction Hcalls as [|[tasks sched] calls Hts _ IH]; intros w Hw; simpl; [done|].
  apply IH.
  apply (exec_invariant self (λ c, frame_ok c.1 ∧ serving_world c.2)).
  - intros a c c' [Hf1 Hw1] Hs. by eapply serving_step.
  - split; [by apply collect_call_ok|done].
Qed.

(** ** Disposal *)

Lemma closed_progress m tr i s :
  pool_ok m → closed m = true → workers m !! i = Some s → s ≠ WExited →
  ∃ w', worker_step i (World (Some m) tr) = Some w'.
Proof.
  intros [Hinit Hsp Hq Hb] Hc Hi Hs.
  destruct s as [|a b|a b j|]; [| | |done].
  - apply (sum_list_with_lookup spawned) in Hi as Hle. simpl in Hle.
    destruct (gpu_queue m) as [|[a b] q] eqn:Hg; simpl in *; [lia|].
    destruct (init_effect (pool_init_fn m) a b) as [evs s'] eqn:He.
    eexists. apply worker_step_trans. by eapply wt_init.
  - destruct (inqueue m) as [|j q] eqn:Hj.
    + eexists. apply worker_step_trans. by eapply wt_exit.
    + eexists. apply worker_step_trans. by eapply wt_pick.
  - destruct (run_effect j a b) as [[vs evs] s'] eqn:He.
    eexists. apply worker_step_trans. by eapply wt_run.
Qed.

Lemma forallb_exited_false l :
  forallb is_exited l = false → ∃ i s, l !! i = Some s ∧ s ≠ WExited.
Proof.
  induction l as [|s l IH]; simpl; [done|].
  destruct s; simpl; try (by intros; exists 0; eexists).
  intros H. destruct (IH H) as (i & s & Hi & Hs). by exists (S i), s.
Qed.

Lemma disposing_step self a c c' :
  disposing c → step self a c = Some c' → disposing c'.
Proof.
  destruct c as [f w], c' as [f' w']. intros (m & Hm & Hok & Hf) Hstep. simpl in *.
  destruct a as [|i]; simpl in *.
  - destruct f; try done; simpl in Hstep; rewrite Hm in Hstep.
    + simplify_eq. destruct Hf as (Hc & Hcl & Hjn).
      eexists. split; [done|]. cbn [fst snd mp trace closed]. rewrite !count_app, Hcl, Hjn.
      split; [by destruct Hok|done].
    + destruct (forallb is_exited (workers m)); simplify_eq.
      destruct Hf as (Hc & Hcl & Hjn). exists m. cbn [fst snd mp trace closed].
      rewrite !count_app, Hcl, Hjn. done.
  - destruct (worker_step i w) as [w1|] eqn:Hws; simplify_eq/=.
    destruct w as [ow tr]. simpl in *. subst ow. apply worker_step_trans in Hws.
    destruct (worker_trans_trace _ _ _ Hws) as (evs & Htr & He1 & He2).
    destruct (worker_trans_ok _ _ _ _ Hok Hws) as (m' & Hm' & Hok' & _ & Hc' & _).
    exists m'. split; [done|]. split; [done|]. cbn [fst snd trace] in *.
    destruct f'; try done; rewrite Htr, !count_app, He1, He2, !Nat.add_0_r, ?Hc'; done.
Qed.

Lemma disposing_quiescent self c :
  disposing c → enabled self c = [] → c.1 = FIdle.
Proof.
  destruct c as [f [ow tr]]. intros (m & Hm & Hok & Hf) Hen. simpl in *. subst ow.
  pose proof (enabled_main _ _ Hen) as Hmain.
  destruct f; simpl in Hmain; try done. exfalso. destruct Hf as (Hc & _).
  destruct (forallb is_exited (workers m)) eqn:Hex; [done|].
  apply forallb_exited_false in Hex as (i & s & Hi & Hs).
  destruct (closed_progress m tr i s Hok Hc Hi Hs) as [w' Hw'].
  pose proof (enabled_worker _ _ i Hen) as Hnone. simpl in Hnone. congruence.
Qed.

Lemma collect_sync self tasks :
  debug_mode self = true →
  collect (__call__ self tasks) = consume (_call_sync self tasks).
Proof.
  intros Hd. unfold __call__. rewrite Hd. simpl. by destruct (return_generator self).
Qed.

Lemma collect_async self tasks :
  debug_mode self = false →
  collect (__call__ self tasks) = consume (_call_async self tasks).
Proof.
  intros Hd. unfold __call__. rewrite Hd. simpl. by destruct (return_generator self).
Qed.

Lemma sync_call_returns self tasks vs tr sched :
  Forall2 (λ t v, t 0%Z 0%Z = Ret v) tasks vs →
  length tasks + 1 < length sched →
  exec self sched (consume (_call_sync self tasks), World None tr) =
  (FList vs GDone,
   World None (tr ++ [EvLog LogDebugModeCall]
                  ++ when (progressbar self) [EvPbarOpen (length tasks)]
                  ++ call_events tasks)).
Proof.
  intros Hvs Hlen. destruct sched as [|n sched]; simpl in Hlen; [lia|].
  rewrite exec_alone. simpl.
  rewrite (sync_loop_returns self tasks vs) by (done || lia).
  by rewrite <- !app_assoc.
Qed.

Lemma pool_world_serving D W o :
  (1 ≤ D)%Z → (1 ≤ W)%Z → init_succeeds o → serving_world (pool_world D W o).
Proof. intros HD HW Ho. eexists. split; [done|]. by apply init_serving. Qed.

Lemma disposal_completes self o ids w sched :
  debug_mode self = false → serving_world w → untorn w → claim_inv o ids w →
  mu (__del__ self, w) ≤ length sched →
  ∃ w', exec self sched (__del__ self, w) = (FIdle, w') ∧
        claimed (trace w') = ids ∧ claim_inv o ids w' ∧
        count is_close (trace w') = 1 ∧ count is_join (trace w') = 1.
Proof.
  intros Hd (m & Hm & Hsv) [Hcl Hjn] Hc Hmu.
  pose proof (exec_quiescent self sched _ Hmu) as Hq.
  pose proof (exec_invariant self (λ c, disposing c ∧ claim_inv o ids c.2) sched
                (__del__ self, w)) as Hinv.
  destruct Hinv as [Hdis Hc'].
  - intros a c c' [H1 H2] Hs. split; [by eapply disposing_step|by eapply claim_inv_step].
  - split; [|done]. unfold __del__. rewrite Hd. simpl. exists m.
    split; [done|]. split; [apply Hsv|]. simpl. split_and!; [apply Hsv|done|done].
  - pose proof (disposing_quiescent _ _ Hdis Hq) as Hf.
    pose proof (claim_inv_quiescent _ _ _ _ Hc' Hq) as Hids.
    destruct (exec self sched (__del__ self, w)) as [f' w']. simpl in *. subst f'.
    exists w'. destruct Hdis as (m' & _ & _ & ? & ?). by split_and!.
Qed.

(** ** Tasks with the same slots cannot be told apart *)

Lemma same_slots_sym t1 t2 : same_slots t1 t2 → same_slots t2 t1.
Proof. intros H w g. by rewrite H. Qed.

Lemma wstate_sim_sym s1 s2 : wstate_sim s1 s2 → wstate_sim s2 s1.
Proof.
  destruct s1, s2; simpl; try done; [by intros [-> ->]|].
  intros (-> & -> & H). split_and!; try done. by apply same_slots_sym.
Qed.

Lemma Forall2_sym {A} (R : A → A → Prop) l1 l2 :
  (∀ x y, R x y → R y x) → Forall2 R l1 l2 → Forall2 R l2 l1.
Proof. intros HR. induction 1; constructor; auto. Qed.

Lemma world_sim_sym w1 w2 : world_sim w1 w2 → world_sim w2 w1.
Proof.
  unfold world_sim. destruct (mp w1) as [m1|], (mp w2) as [m2|]; try done.
  intros (? & ? & ? & ? & Hq & Hw). split_and!; try done.
  - apply Forall2_sym; [|done]. intros ? ?. apply same_slots_sym.
  - apply Forall2_sym; [|done]. apply wstate_sim_sym.
Qed.

Lemma world_sim_refl w : world_sim w w.
Proof.
  unfold world_sim. destruct (mp w) as [m|]; [|done].
  split_and!; try done.
  - apply Forall_Forall2_diag, Forall_forall. by intros.
  - apply Forall_Forall2_diag, Forall_forall. by intros [] ?.
Qed.

Lemma run_effect_slot j w g :
  ∃ evs, run_effect j w g =
         (match slot (job_func j w g) with Some v => [v] | None => [] end, evs,
          match slot (job_func j w g) with Some _ => WReady w g | None => WSpawned end).
Proof.
  unfold run_effect, slot.
  destruct (job_func j w g) as [v|e]; [|destruct (is_Exception e)]; by eexists.
Qed.

Lemma init_effect_state o w g evs s' :
  init_effect o w g = (evs, s') → s' = WSpawned ∨ s' = WReady w g.
Proof.
  unfold init_effect. destruct o as [f|]; [destruct (f w g)|]; intros; simplify_eq; auto.
Qed.

Lemma worker_trans_sim i m1 m2 tr1 tr2 w1' :
  mp_sim m1 m2 → worker_trans i (World (Some m1) tr1) w1' →
  ∃ w2', worker_trans i (World (Some m2) tr2) w2' ∧ world_sim w1' w2'.
Proof.
  intros (Ho & Hg & Hrq & Hc & Hq & Hw).
  inversion 1 as [? ? a b q evs s' Hi Hgq He|? ? a b j q Hi Hj|? ? a b Hi Hj Hcl
                 |? ? a b j vs evs s' Hi He]; subst;
    destruct (Forall2_lookup_l _ _ _ _ _ Hw Hi) as (s2 & Hi2 & Hs);
    destruct s2 as [|a2 b2|a2 b2 j2|]; simpl in Hs; try done.
  - eexists. split.
    + eapply wt_init; [done|by rewrite <- Hg|by rewrite <- Ho].
    + unfold world_sim, mp_sim. simpl. split_and!; try done.
      apply Forall2_insert; [done|].
      by destruct (init_effect_state _ _ _ _ _ He) as [-> | ->].
  - destruct Hs as [-> ->]. rewrite Hj in Hq.
    inversion Hq as [|? j2 ? q2 Hjj Hqq Heq1 Heq2]; subst.
    eexists. split; [by eapply wt_pick|].
    unfold world_sim, mp_sim. simpl. split_and!; try done.
    by apply Forall2_insert.
  - destruct Hs as [-> ->]. rewrite Hj in Hq. inversion Hq; subst.
    eexists. split; [eapply wt_exit; [done|done|congruence]|].
    unfold world_sim, mp_sim. simpl. split_and!; try done.
    + by rewrite Hj.
    + by apply Forall2_insert.
  - destruct Hs as (-> & -> & Hjj).
    destruct (run_effect_slot j a2 b2) as [evs1 He1].
    destruct (run_effect_slot j2 a2 b2) as [evs2 He2].
    rewrite He1 in He. simplify_eq. rewrite (Hjj a2 b2).
    eexists. split; [by eapply wt_run|].
    unfold world_sim, mp_sim. simpl. split_and!; try done; [congruence|].
    apply Forall2_insert; [done|]. by destruct (slot (job_func j2 a2 b2)).
Qed.

Lemma worker_step_sim i w1 w2 :
  world_sim w1 w2 →
  match worker_step i w1, worker_step i w2 with
  | Some w1', Some w2' => world_sim w1' w2'
  | None, None => True
  | _, _ => False
  end.
Proof.
  assert (∀ w1 w2 w1', world_sim w1 w2 → worker_step i w1 = Some w1' →
                       ∃ w2', worker_step i w2 = Some w2' ∧ world_sim w1' w2') as Hone.
  { clear. intros [[m1|] tr1] [[m2|] tr2] w1' Hsim Hs; unfold world_sim in Hsim;
      simpl in *; try done.
    apply worker_step_trans in Hs.
    destruct (worker_trans_sim i m1 m2 tr1 tr2 w1' Hsim Hs) as (w2' & Hw2 & Hsim').
    exists w2'. split; [by apply worker_step_trans|done]. }
  intros Hsim.
  destruct (worker_step i w1) as [w1'|] eqn:H1.
  - destruct (Hone _ _ _ Hsim H1) as (w2' & -> & ?). done.
  - destruct (worker_step i w2) as [w2'|] eqn:H2; [|done].
    destruct (Hone _ _ _ (world_sim_sym _ _ Hsim) H2) as (? & ? & _). congruence.
Qed.

Lemma resume_sim self g1 g2 w1 w2 :
  gen_sim g1 g2 → world_sim w1 w2 →
  match resume self g1 w1, resume self g2 w2 with
  | Some (g1', w1', sg1), Some (g2', w2', sg2) =>
      gen_sim g1' g2' ∧ world_sim w1' w2' ∧ sg1 = sg2
  | None, None => True
  | _, _ => False
  end.
Proof.
  intros Hg Hw. pose proof Hw as Hw0. unfold world_sim in Hw.
  destruct g1 as [r1 n1|k1|k1|ts1|r1|], g2 as [r2 n2|k2|k2|ts2|r2|];
    simpl in Hg; try done.
  - destruct Hg as [Hr ->]. destruct Hr as [|t1 t2 r1 r2 Ht Hr]; simpl; [done|].
    destruct (mp w1) as [m1|] eqn:H1, (mp w2) as [m2|] eqn:H2; try done.
    destruct Hw as (Ho & Hgq & Hrq & Hc & Hq & Hws). rewrite Hc.
    destruct (closed m2) eqn:Hcl; [done|].
    split_and!; try done. unfold world_sim, mp_sim. simpl. split_and!; try done.
    apply Forall2_app; [done|]. by repeat constructor.
  - subst k2. destruct k1 as [|k]; simpl; [done|].
    destruct (mp w1) as [m1|] eqn:H1, (mp w2) as [m2|] eqn:H2; try done.
    destruct Hw as (Ho & Hgq & Hrq & Hc & Hq & Hws). rewrite Hrq.
    destruct (result_queue m2) as [|v q]; [done|].
    split_and!; try done.
Qed.

Lemma main_step_sim self c1 c2 :
  sim c1 c2 →
  match main_step self c1.1 c1.2, main_step self c2.1 c2.2 with
  | Some c1', Some c2' => sim c1' c2'
  | None, None => True
  | _, _ => False
  end.
Proof.
  destruct c1 as [f1 w1], c2 as [f2 w2]. intros [Hf Hw]. simpl in *.
  destruct f1 as [g1 acc1|l1 g1| |e1 g1| | |], f2 as [g2 acc2|l2 g2| |e2 g2| | |];
    simpl in Hf; try done. destruct Hf as [Hg ->]. simpl.
  pose proof (resume_sim self g1 g2 w1 w2 Hg Hw) as Hr.
  destruct (resume self g1 w1) as [[[g1' w1'] sg1]|],
           (resume self g2 w2) as [[[g2' w2'] sg2]|]; try done.
  destruct Hr as (Hg' & Hw' & <-).
  destruct sg1 as [[v| |e]|]; by split.
Qed.

Lemma step_sim self a c1 c2 :
  sim c1 c2 →
  match step self a c1, step self a c2 with
  | Some c1', Some c2' => sim c1' c2'
  | None, None => True
  | _, _ => False
  end.
Proof.
  intros Hsim. destruct a as [|i]; simpl; [by apply main_step_sim|].
  destruct Hsim as [Hf Hw].
  pose proof (worker_step_sim i _ _ Hw) as Hs.
  destruct (worker_step i c1.2), (worker_step i c2.2); simpl; done.
Qed.

Lemma enabled_sim self c1 c2 : sim c1 c2 → enabled self c1 = enabled self c2.
Proof.
  intros Hsim. unfold enabled.
  assert (actors c1.2 = actors c2.2) as ->.
  { unfold actors, n_processes. destruct Hsim as [_ Hw]. unfold world_sim in Hw.
    destruct (mp c1.2) as [m1|], (mp c2.2) as [m2|]; try done.
    destruct Hw as (_ & _ & _ & _ & _ & Hws). by rewrite (Forall2_length _ _ _ Hws). }
  apply filter_ext. intros a. unfold can_step.
  pose proof (step_sim self a _ _ Hsim) as Hs.
  by destruct (step self a c1), (step self a c2).
Qed.

Lemma exec_sim self sched c1 c2 :
  sim c1 c2 → sim (exec self sched c1) (exec self sched c2).
Proof.
  revert c1 c2. induction sched as [|n sched IH]; intros c1 c2 Hsim; simpl; [done|].
  rewrite (enabled_sim self c1 c2 Hsim).
  destruct (enabled self c2 !! _) as [a|]; [|done].
  pose proof (step_sim self a _ _ Hsim) as Hs.
  destruct (step self a c1), (step self a c2); try done. by apply IH.
Qed.

(** ** Sample runs *)

Example identities_2_3 :
  fill_gpu_queue 2 3 = [(0, 0); (1, 0); (2, 0); (3, 1); (4, 1); (5, 1)]%Z.
Proof. reflexivity. Qed.

(** Two devices with two slots each and five tasks that return their
    identity: five pairs come back, in completion order, each one of the
    four identities. *)
Example five_tasks_2x2 :
  (exec (instance 2 2 None false true true) (seq 0 60)
        (__call__ (instance 2 2 None false true true)
           [task_identity; task_identity; task_identity; task_identity; task_identity],
         pool_world 2 2 None)).1
  = FList [VTuple (VInt 1) (VInt 0); VTuple (VInt 0) (VInt 0); VTuple (VInt 2) (VInt 1);
           VTuple (VInt 0) (VInt 0); VTuple (VInt 1) (VInt 0)] GDone.
Proof. vm_compute. reflexivity. Qed.

(** A task that leaves its process by [SystemExit]: the only process of the
    pool is replaced by one that waits for an identity for ever, and the
    coordinator waits for two results that never come. *)
Example exit_then_identity_1x1 :
  (exec (instance 1 1 None false true true) (repeat 0 60)
        (__call__ (instance 1 1 None false true true) [task_exit; task_identity],
         pool_world 1 1 None)).1
  = FComp (ALoop 2) [].
Proof. vm_compute. reflexivity. Qed.

(** * The claims *)

(** C2 (identity completeness).  For [devices = D >= 1] and
    [slots_per_device = W >= 1], construction starts [D * W] pool processes
    and fills the identity queue with exactly [D * W] pairs, in device-major
    order, [slot_id = device_id * W + local_index]: the pair at position [k]
    is [(k, k / W)], no pair occurs twice, and the pairs are exactly the
    [(d * W + local, d)] with [0 <= d < D] and [0 <= local < W].  Whatever
    the coordinator does afterwards and however the processes are scheduled,
    once nobody can move the processes have claimed exactly these pairs, each
    once, in queue order. *)
Theorem identity_completeness D W o rg pb ign :
  (1 ≤ D)%Z → (1 ≤ W)%Z →
  let self := instance D W o rg pb ign in
  let w0 := pool_world D W o in
  __init__ D W o rg pb ign = (Ret self, w0) ∧
  n_processes w0 = Z.to_nat (D * W) ∧
  fill_gpu_queue D W = identities D W ∧
  length (identities D W) = Z.to_nat (D * W) ∧
  NoDup (identities D W) ∧
  (∀ k s d, identities D W !! k = Some (s, d) →
            s = Z.of_nat k ∧ d = (Z.of_nat k / W)%Z) ∧
  (∀ s d, (s, d) ∈ identities D W ↔
          ∃ local, (0 ≤ d < D ∧ 0 ≤ local < W ∧ s = d * W + local)%Z) ∧
  (∀ f sched, mu (f, w0) ≤ length sched →
              claimed (trace (exec self sched (f, w0)).2) = identities D W).
Proof.
  intros HD HW self w0.
  assert (self = Self false D W rg pb ign) as Hself.
  { unfold self, instance. by destruct (Z.eqb_spec D 0); [lia|]. }
  split_and!.
  - rewrite Hself. by apply init_async.
  - unfold w0, pool_world, n_processes. cbn [mp workers]. apply length_replicate.
  - apply fill_gpu_queue_identities.
  - apply length_identities; lia.
  - apply NoDup_identities.
  - intros k s d. by apply lookup_identities.
  - apply elem_of_identities.
  - intros f sched Hmu. apply (claim_inv_quiescent self o).
    + apply (exec_invariant _ (λ c, claim_inv o (identities D W) c.2)).
      * intros a c c' Hc Hs. by eapply claim_inv_step.
      * by apply init_claim_inv.
    + by apply exec_quiescent.
Qed.

Lemma identity_completeness_witness :
  __init__ 2 2 None false true true =
    (Ret (instance 2 2 None false true true), pool_world 2 2 None) ∧
  n_processes (pool_world 2 2 None) = Z.to_nat (2 * 2) ∧
  fill_gpu_queue 2 2 = identities 2 2 ∧
  length (identities 2 2) = Z.to_nat (2 * 2) ∧
  NoDup (identities 2 2) ∧
  (∀ k s d, identities 2 2 !! k = Some (s, d) →
            s = Z.of_nat k ∧ d = (Z.of_nat k / 2)%Z) ∧
  (∀ s d, (s, d) ∈ identities 2 2 ↔
          ∃ local, (0 ≤ d < 2 ∧ 0 ≤ local < 2 ∧ s = d * 2 + local)%Z) ∧
  (∀ f sched, mu (f, pool_world 2 2 None) ≤ length sched →
              claimed (trace (exec (instance 2 2 None false true true) sched
                                (f, pool_world 2 2 None)).2) = identities 2 2).
Proof. apply (identity_completeness 2 2 None false true true); lia. Defined.

(** C4, as the code has it.  A task that fails in a worker with an instance
    of [Exception]: the failure is logged, the empty slot [None] is put on
    the result queue, and only then, and only when [ignore_errors] is false,
    the exception is raised again; with [ignore_errors] true [_run_task]
    returns.  A failure outside [Exception] is not handled at all: nothing is
    logged or published and the exception leaves [_run_task], whatever
    [ignore_errors] is. *)
Theorem run_task_failure func ign wid gid e m tr :
  func wid gid = Raise e →
  (is_Exception e = true →
   _run_task func ign wid gid (m, tr) =
   Some (if ign then Ret tt else Raise e,
         (MP (pool_init_fn m) (gpu_queue m) (result_queue m ++ [VNone]) (inqueue m)
             (workers m) (closed m),
          tr ++ [EvTask func wid gid; EvLog (LogTraceback e)]))) ∧
  (is_Exception e = false →
   _run_task func ign wid gid (m, tr) = Some (Raise e, (m, tr ++ [EvTask func wid gid]))).
Proof.
  intros Hf. rewrite run_task_eval. simpl. rewrite Hf.
  split; intros ->; [|done]. by rewrite <- app_assoc.
Qed.

Lemma run_task_failure_witness :
  (is_Exception (Exc "RuntimeError") = true →
   _run_task task_failing false 3 1 (MP None [] [] [] [WBusy 3 1 (Job task_failing false)] false, []) =
   Some (Raise (Exc "RuntimeError"),
         (MP None [] [VNone] [] [WBusy 3 1 (Job task_failing false)] false,
          [EvTask task_failing 3 1; EvLog (LogTraceback (Exc "RuntimeError"))]))) ∧
  (is_Exception (Exc "RuntimeError") = false →
   _run_task task_failing false 3 1 (MP None [] [] [] [WBusy 3 1 (Job task_failing false)] false, []) =
   Some (Raise (Exc "RuntimeError"),
         (MP None [] [] [] [WBusy 3 1 (Job task_failing false)] false,
          [EvTask task_failing 3 1]))).
Proof.
  apply (run_task_failure task_failing false 3 1 (Exc "RuntimeError")
           (MP None [] [] [] [WBusy 3 1 (Job task_failing false)] false) []).
  reflexivity.
Defined.

(** C4 as stated fails on a task that raises [SystemExit]: with
    [ignore_errors] true, nothing is logged, nothing is put on the result
    queue, and [_run_task] raises. *)
Lemma run_task_exit_unhandled :
  _run_task task_exit true 0 0 (MP None [] [] [] [WBusy 0 0 (Job task_exit true)] false, []) =
  Some (Raise (BaseExc "SystemExit"),
        (MP None [] [] [] [WBusy 0 0 (Job task_exit true)] false, [EvTask task_exit 0 0])).
Proof. reflexivity. Qed.

(** C8 (construction in debug mode).  With [devices = 0] no pool, no queue
    and no process exists after construction, and nothing was claimed;
    [init_fn], when given, was called once, during construction, with the
    identity [(0, 0)]; construction fails exactly when that call fails. *)
Theorem debug_construction W o rg pb ign :
  let r := __init__ 0 W o rg pb ign in
  mp r.2 = None ∧ n_processes r.2 = 0 ∧
  count is_create (trace r.2) = 0 ∧ claimed (trace r.2) = [] ∧
  trace r.2 = EvLog LogDebugModeInit ::
              match o with Some _ => [EvInitFn 0 0] | None => [] end ∧
  r.1 = match o with
        | Some f => match f 0%Z 0%Z with
                    | Ret _ => Ret (Self true 0 W rg pb ign)
                    | Raise e => Raise e
                    end
        | None => Ret (Self true 0 W rg pb ign)
        end.
Proof.
  unfold __init__. simpl. destruct o as [f|]; [destruct (f 0%Z 0%Z)|]; by simpl.
Qed.

(** C1, as the code has it (count preservation).  In async mode with
    [ignore_errors] true, on a serving pool, a dispatch of [N] tasks, each of
    which returns or fails with an instance of [Exception], returns under
    every schedule, and the returned list (the drained stream in lazy mode)
    has exactly [N] elements; a worker that runs one of these tasks puts
    exactly one slot on the result queue, the empty one if the task fails. *)
Theorem count_preservation self tasks w sched :
  debug_mode self = false → ignore_errors self = true →
  serving_world w → Forall catchable tasks →
  mu (collect (__call__ self tasks), w) ≤ length sched →
  (∃ l w', exec self sched (collect (__call__ self tasks), w) = (FList l GDone, w') ∧
           length l = length tasks ∧ serving_world w') ∧
  (∀ t wid gid m tr, t ∈ tasks →
     ∃ v tr', _run_task t (ignore_errors self) wid gid (m, tr) =
              Some (Ret tt,
                    (MP (pool_init_fn m) (gpu_queue m) (result_queue m ++ [v]) (inqueue m)
                        (workers m) (closed m), tr')) ∧
              (∀ e, t wid gid = Raise e → v = VNone)).
Proof.
  intros Hd Hi Hw Hts Hmu. rewrite collect_async in * by done.
  split; [by apply dispatch_returns|].
  intros t wid gid m tr Ht. rewrite Hi, run_task_eval. simpl.
  pose proof (proj1 (Forall_forall _ _) Hts t Ht wid gid) as Hcatch.
  destruct (t wid gid) as [v|e]; [|rewrite Hcatch]; eexists _, _; by split.
Qed.

Lemma count_preservation_witness :
  let self := instance 2 2 None false true true in
  let tasks := [task_identity; task_failing; task_none; task_identity; task_failing] in
  let w := session self [([task_failing; task_none], seq 0 7)] (pool_world 2 2 None) in
  (∃ l w', exec self (seq 0 200) (collect (__call__ self tasks), w) = (FList l GDone, w') ∧
           length l = length tasks ∧ serving_world w') ∧
  (∀ t wid gid m tr, t ∈ tasks →
     ∃ v tr', _run_task t (ignore_errors self) wid gid (m, tr) =
              Some (Ret tt,
                    (MP (pool_init_fn m) (gpu_queue m) (result_queue m ++ [v]) (inqueue m)
                        (workers m) (closed m), tr')) ∧
              (∀ e, t wid gid = Raise e → v = VNone)).
Proof.
  intros self tasks w.
  apply (count_preservation self tasks w (seq 0 200)).
  - reflexivity.
  - reflexivity.
  - apply session_serving; [repeat constructor|].
    apply pool_world_serving; [lia|lia|exact I].
  - repeat constructor.
  - vm_compute. lia.
Defined.

Lemma lost_step self a c c' : lost c → step self a c = Some c' → lost c'.
Proof.
  destruct c as [f w], c' as [f' w'].
  intros (m & Hm & Hrq & Hopen & Hq & Hb & Hf) Hstep. simpl in *.
  destruct a as [|i]; simpl in *.
  - destruct Hf as [->|[->| ->]]; simpl in Hstep; rewrite ?Hm, ?Hopen, ?Hrq in Hstep;
      simplify_eq; (eexists; split; [done|]); unfold lost; simpl; split_and!; auto.
    apply Forall_app. split; [done|]. by repeat constructor.
  - destruct (worker_step i w) as [w1|] eqn:Hw; simplify_eq/=.
    destruct w as [ow tr]. simpl in *. subst ow. apply worker_step_trans in Hw.
    inversion Hw as [? ? a b q evs s' Hi Hg He|? ? a b j q Hi Hj|? ? a b Hi Hj Hc
                    |? ? a b j vs evs s' Hi He]; subst;
      (eexists; split; [done|]); simpl.
    + split_and!; try done. apply Forall_insert; [done|].
      unfold init_effect in He.
      destruct (pool_init_fn m) as [g|]; [destruct (g a b)|]; by simplify_eq.
    + rewrite Hj in Hq. inversion Hq; subst. split_and!; try done.
      by apply Forall_insert.
    + congruence.
    + pose proof (Forall_lookup_1 _ _ _ _ Hb Hi) as Hj. simpl in Hj.
      unfold run_effect in He. rewrite Hj in He. simpl in He. simplify_eq.
      rewrite app_nil_r. split_and!; try done. by apply Forall_insert.
Qed.

(** C1 as stated fails when a task fails with [SystemExit]: on a fresh
    one-process pool with [ignore_errors] true, the dispatch of this single
    task returns under no schedule; the slot of the task is dropped. *)
Lemma exit_task_slot_dropped :
  __init__ 1 1 None false true true =
    (Ret (instance 1 1 None false true true), pool_world 1 1 None) ∧
  ¬ ∃ sched l g w',
      exec (instance 1 1 None false true true) sched
           (__call__ (instance 1 1 None false true true) [task_exit],
            pool_world 1 1 None) = (FList l g, w').
Proof.
  split; [reflexivity|]. intros (sched & l & g & w' & Hex).
  assert (lost (exec (instance 1 1 None false true true) sched
                 (__call__ (instance 1 1 None false true true) [task_exit],
                  pool_world 1 1 None))) as (m & _ & _ & _ & _ & _ & Hf).
  { apply exec_invariant; [apply lost_step|].
    eexists. split; [reflexivity|]. simpl. split_and!; auto.
    by repeat constructor. }
  rewrite Hex in Hf. simpl in Hf. by destruct Hf as [?|[?|?]].
Qed.

(** C3 (debug determinism).  In debug mode, for tasks [t1, ..., tn] that all
    succeed at the identity [(0, 0)], the dispatch returns exactly
    [[t1(0,0), ..., tn(0,0)]] (in lazy mode: the drained stream is this
    list), and the calls made are exactly [t1(0,0), ..., tn(0,0)], in
    submission order, in the caller's process. *)
Theorem debug_determinism self tasks vs tr sched :
  debug_mode self = true →
  Forall2 (λ t v, t 0%Z 0%Z = Ret v) tasks vs →
  length tasks + 1 < length sched →
  exec self sched (collect (__call__ self tasks), World None tr) =
  (FList vs GDone,
   World None (tr ++ [EvLog LogDebugModeCall]
                  ++ when (progressbar self) [EvPbarOpen (length tasks)]
                  ++ call_events tasks)).
Proof.
  intros Hd Hvs Hlen. rewrite collect_sync by done. by apply sync_call_returns.
Qed.

Lemma debug_determinism_witness :
  exec (instance 0 1 None false false true) (seq 0 10)
       (collect (__call__ (instance 0 1 None false false true)
                   [task_identity; task_none; task_identity]),
        World None [EvLog LogDebugModeInit]) =
  (FList [VTuple (VInt 0) (VInt 0); VNone; VTuple (VInt 0) (VInt 0)] GDone,
   World None ([EvLog LogDebugModeInit] ++ [EvLog LogDebugModeCall]
                  ++ when (progressbar (instance 0 1 None false false true))
                       [EvPbarOpen (length [task_identity; task_none; task_identity])]
                  ++ call_events [task_identity; task_none; task_identity])).
Proof.
  apply (debug_determinism (instance 0 1 None false false true)
           [task_identity; task_none; task_identity]
           [VTuple (VInt 0) (VInt 0); VNone; VTuple (VInt 0) (VInt 0)]
           [EvLog LogDebugModeInit] (seq 0 10)).
  - reflexivity.
  - repeat constructor.
  - simpl. lia.
Defined.

(** C7 (failures in debug mode).  In debug mode, when the tasks before [t]
    succeed and [t] fails with [e], the dispatch ends with [e] raised to the
    caller (in lazy mode: to the caller's consumption of the stream): no
    list is returned and no empty slot stands in for [t]; [t] is the last
    task called; the generator is finished, so a later consumption yields
    nothing and raises nothing.  This holds for every exception and for both
    values of [ignore_errors]. *)
Theorem debug_failure self pre vs t e post tr sched :
  debug_mode self = true →
  Forall2 (λ t v, t 0%Z 0%Z = Ret v) pre vs →
  t 0%Z 0%Z = Raise e →
  length pre + 1 < length sched →
  exec self sched (collect (__call__ self (pre ++ t :: post)), World None tr) =
  (FExc e GDone,
   World None (tr ++ [EvLog LogDebugModeCall]
                  ++ when (progressbar self) [EvPbarOpen (length (pre ++ t :: post))]
                  ++ call_events (pre ++ [t]))) ∧
  (∀ tr', exec self sched (consume GDone, World None tr') = (FList [] GDone, World None tr')).
Proof.
  intros Hd Hvs He Hlen. split.
  - rewrite collect_sync by done.
    destruct sched as [|n sched]; simpl in Hlen; [lia|].
    rewrite exec_alone. simpl.
    rewrite (sync_loop_raises self pre vs t e post) by (done || lia).
    by rewrite <- !app_assoc.
  - intros tr'. destruct sched as [|n sched]; simpl in Hlen; [lia|].
    rewrite exec_alone. simpl. by apply exec_stuck.
Qed.

Lemma debug_failure_witness :
  exec (instance 0 1 None false false true) (seq 0 10)
       (collect (__call__ (instance 0 1 None false false true)
                   ([task_identity] ++ task_failing :: [task_none])),
        World None []) =
  (FExc (Exc "RuntimeError") GDone,
   World None ([] ++ [EvLog LogDebugModeCall]
                  ++ when (progressbar (instance 0 1 None false false true))
                       [EvPbarOpen (length ([task_identity] ++ task_failing :: [task_none]))]
                  ++ call_events ([task_identity] ++ [task_failing]))) ∧
  (∀ tr', exec (instance 0 1 None false false true) (seq 0 10)
               (consume GDone, World None tr') = (FList [] GDone, World None tr')).
Proof.
  apply (debug_failure (instance 0 1 None false false true)
           [task_identity] [VTuple (VInt 0) (VInt 0)] task_failing (Exc "RuntimeError")
           [task_none] [] (seq 0 10)).
  - reflexivity.
  - repeat constructor.
  - reflexivity.
  - simpl. lia.
Defined.

(** C10 (empty dispatch).  For every configuration and every world, the
    dispatch of no task returns the empty list under every schedule (in lazy
    mode: the stream yields nothing).  The coordinator never waits on the
    way: each of its steps is enabled in every world, and none submits a
    job or takes anything from the result queue.  In debug mode no task is
    called. *)
Theorem empty_dispatch_empty self :
  (∀ w sched, mu (collect (__call__ self []), w) ≤ length sched →
              (exec self sched (collect (__call__ self []), w)).1 = FList [] GDone) ∧
  empty_dispatch (collect (__call__ self [])) ∧
  (∀ f w, empty_dispatch f →
          f = FList [] GDone ∨
          ∃ f' w', main_step self f w = Some (f', w') ∧ empty_dispatch f' ∧ mp w' = mp w) ∧
  (∀ tr sched, debug_mode self = true → 2 ≤ length sched →
               exec self sched (collect (__call__ self []), World None tr) =
               (FList [] GDone,
                World None (tr ++ [EvLog LogDebugModeCall]
                               ++ when (progressbar self) [EvPbarOpen 0]))).
Proof.
  assert (empty_dispatch (collect (__call__ self []))) as He.
  { unfold __call__, empty_dispatch, _call_async, _call_sync.
    destruct (debug_mode self), (return_generator self); simpl; auto. }
  split_and!; [|done|..].
  - intros w sched Hmu. by apply empty_dispatch_returns.
  - intros f w Hf. destruct (empty_dispatch_enabled self f w Hf) as [|[[f' w'] Hs]]; [by left|].
    right. exists f', w'. split; [done|]. by eapply empty_dispatch_step.
  - intros tr sched Hd Hlen.
    rewrite collect_sync by done.
    destruct sched as [|n [|n' sched]]; simpl in Hlen; try lia.
    rewrite !exec_alone. simpl. by apply exec_stuck.
Qed.

Lemma empty_dispatch_empty_witness :
  (exec (instance 2 2 None false true true) (seq 0 40)
        (collect (__call__ (instance 2 2 None false true true) []), pool_world 2 2 None)).1
  = FList [] GDone ∧
  exec (instance 0 1 None false true true) (seq 0 2)
       (collect (__call__ (instance 0 1 None false true true) []), World None []) =
  (FList [] GDone,
   World None ([] ++ [EvLog LogDebugModeCall]
                  ++ when (progressbar (instance 0 1 None false true true)) [EvPbarOpen 0])).
Proof.
  split.
  - apply (proj1 (empty_dispatch_empty (instance 2 2 None false true true))).
    vm_compute. lia.
  - apply (proj2 (proj2 (proj2 (empty_dispatch_empty (instance 0 1 None false true true))))).
    + reflexivity.
    + simpl. lia.
Defined.

(** C6 (result stream).  With [return_generator] false, [__call__] itself
    runs the list comprehension over the generator: a list reaches the
    caller only once the generator is finished, and (on a serving pool with
    catchable tasks, or in debug mode with succeeding tasks) it does.  With
    [return_generator] true, [__call__] returns the generator, not yet
    started.  A finished generator is finished for good: consuming it again
    yields the empty list at once, in every world and under every schedule,
    and leaves the world as it is. *)
Theorem result_stream self tasks :
  let g0 := if negb (debug_mode self)
            then _call_async self tasks else _call_sync self tasks in
  (return_generator self = false → __call__ self tasks = FComp g0 []) ∧
  (return_generator self = true → __call__ self tasks = FGen g0) ∧
  (∀ w sched, drained (exec self sched (consume g0, w)).1) ∧
  (∀ w sched, debug_mode self = false → serving_world w → Forall catchable tasks →
              mu (consume g0, w) ≤ length sched →
              ∃ l w', exec self sched (consume g0, w) = (FList l GDone, w') ∧
                      length l = length tasks) ∧
  (∀ tr sched vs, debug_mode self = true →
                  Forall2 (λ t v, t 0%Z 0%Z = Ret v) tasks vs →
                  length tasks + 1 < length sched →
                  ∃ w', exec self sched (consume g0, World None tr) = (FList vs GDone, w')) ∧
  (∀ w, main_step self (consume GDone) w = Some (FList [] GDone, w)) ∧
  (∀ w sched, mu (consume GDone, w) ≤ length sched →
              (exec self sched (consume GDone, w)).1 = FList [] GDone).
Proof.
  intros g0. split_and!.
  - unfold __call__. by intros ->.
  - unfold __call__. by intros ->.
  - intros w sched. by apply exec_drained.
  - intros w sched Hd Hw Hts Hmu. subst g0. rewrite Hd in *. simpl in *.
    destruct (dispatch_returns self tasks w sched Hw Hts Hmu) as (l & w' & ? & ? & _).
    by exists l, w'.
  - intros tr sched vs Hd Hvs Hlen. subst g0. rewrite Hd. simpl.
    eexists. by apply sync_call_returns.
  - done.
  - intros w sched Hmu. apply spent_returns; [by left|done].
Qed.

Lemma result_stream_witness :
  (∃ l w', exec (instance 1 2 None false true true) (seq 0 100)
             (consume (_call_async (instance 1 2 None false true true)
                         [task_identity; task_failing]),
              pool_world 1 2 None) = (FList l GDone, w') ∧
           length l = length [task_identity; task_failing]) ∧
  (exec (instance 1 2 None true true true) (seq 0 100)
        (consume GDone, pool_world 1 2 None)).1 = FList [] GDone.
Proof.
  split.
  - apply (proj1 (proj2 (proj2 (proj2
             (result_stream (instance 1 2 None false true true)
                            [task_identity; task_failing]))))).
    + reflexivity.
    + eexists. split; [reflexivity|]. apply (init_serving 1 2 None); [lia|lia|exact I].
    + repeat constructor.
    + vm_compute. lia.
  - apply (proj2 (proj2 (proj2 (proj2 (proj2 (proj2
             (result_stream (instance 1 2 None true true true) []))))))).
    vm_compute. lia.
Defined.

(** C5 (pool reuse).  On an instance built with [devices = D >= 1] and
    [slots_per_device = W >= 1], after any number of dispatches, whatever the
    tasks and the schedules, the pool was created once and not torn down,
    and [init_fn] was called on an initial part of the identities only, at
    most once each.  When [init_fn] succeeds and the failures of the tasks
    are instances of [Exception], disposal completes under every schedule,
    and at its end [init_fn] has been called exactly once per identity,
    [D * W] times in all, and the pool was created once, closed once and
    joined once. *)
Theorem pool_reuse D W f rg pb ign calls sd :
  (1 ≤ D)%Z → (1 ≤ W)%Z →
  let self := instance D W (Some f) rg pb ign in
  let w0 := pool_world D W (Some f) in
  let w1 := session self calls w0 in
  __init__ D W (Some f) rg pb ign = (Ret self, w0) ∧
  count is_create (trace w1) = 1 ∧
  count is_close (trace w1) = 0 ∧ count is_join (trace w1) = 0 ∧
  (∃ rest, inited (trace w1) ++ rest = identities D W) ∧
  ((∀ w g, f w g = Ret tt) →
   Forall (λ c, Forall catchable c.1) calls →
   mu (__del__ self, w1) ≤ length sd →
   ∃ w2, exec self sd (__del__ self, w1) = (FIdle, w2) ∧
         inited (trace w2) = identities D W ∧
         length (inited (trace w2)) = Z.to_nat (D * W) ∧
         count is_create (trace w2) = 1 ∧
         count is_close (trace w2) = 1 ∧ count is_join (trace w2) = 1).
Proof.
  intros HD HW self w0 w1.
  assert (self = Self false D W rg pb ign) as Hself.
  { unfold self, instance. by destruct (Z.eqb_spec D 0); [lia|]. }
  destruct (session_safe self (Some f) (identities D W) calls w0) as [Hu Hc].
  { done. }
  { by apply init_claim_inv. }
  fold w1 in Hu, Hc.
  pose proof Hc as (m & Hm & Ho & Hcl & Hin & Hsp & Hcr).
  pose proof Hu as [Hclose Hjoin].
  split_and!; try done.
  - rewrite Hself. by apply init_async.
  - exists (gpu_queue m). by rewrite Hin.
  - intros Hf Hcalls Hmu.
    assert (serving_world w1) as Hsv.
    { apply session_serving; [done|]. by apply pool_world_serving. }
    destruct (disposal_completes self (Some f) (identities D W) _ sd
                ltac:(by rewrite Hself) Hsv Hu Hc Hmu)
      as (w2 & Hex & Hids & (m2 & _ & _ & _ & Hin2 & _ & Hcr2) & Hcl2 & Hjn2).
    exists w2. rewrite Hin2, Hids. split_and!; try done.
    apply length_identities; lia.
Qed.

Lemma pool_reuse_witness :
  let self := instance 2 1 (Some init_noop) false true true in
  let w1 := session self [([task_identity; task_failing], seq 0 50);
                          ([task_none], seq 0 50)]
                    (pool_world 2 1 (Some init_noop)) in
  ∃ w2, exec self (seq 0 50) (__del__ self, w1) = (FIdle, w2) ∧
        inited (trace w2) = identities 2 1 ∧
        length (inited (trace w2)) = Z.to_nat (2 * 1) ∧
        count is_create (trace w2) = 1 ∧
        count is_close (trace w2) = 1 ∧ count is_join (trace w2) = 1.
Proof.
  intros self w1.
  apply (pool_reuse 2 1 init_noop false true true
           [([task_identity; task_failing], seq 0 50); ([task_none], seq 0 50)]
           (seq 0 50)).
  - lia.
  - lia.
  - reflexivity.
  - repeat constructor.
  - vm_compute. lia.
Defined.

(** C9 (the empty slot is [None]).  With [ignore_errors] true, the slot a
    worker publishes for a task that fails with an instance of [Exception]
    is the value [None], the very slot it publishes for a task that returns
    [None], and [_run_task] returns in both cases.  In async mode, replacing
    tasks by tasks with the same slots changes nothing in what a dispatch
    returns: under the same schedule, from the same world, the two
    dispatches return the same list. *)
Theorem failure_slot_is_None self ts1 ts2 w sched :
  debug_mode self = false → ignore_errors self = true →
  Forall2 same_slots ts1 ts2 →
  (∀ t1 t2 e wid gid m tr,
     t1 wid gid = Raise e → is_Exception e = true → t2 wid gid = Ret VNone →
     slot (t1 wid gid) = slot (t2 wid gid) ∧
     ∃ tr1 tr2,
       _run_task t1 (ignore_errors self) wid gid (m, tr) =
       Some (Ret tt,
             (MP (pool_init_fn m) (gpu_queue m) (result_queue m ++ [VNone]) (inqueue m)
                 (workers m) (closed m), tr1)) ∧
       _run_task t2 (ignore_errors self) wid gid (m, tr) =
       Some (Ret tt,
             (MP (pool_init_fn m) (gpu_queue m) (result_queue m ++ [VNone]) (inqueue m)
                 (workers m) (closed m), tr2))) ∧
  (∀ l g w1,
     exec self sched (collect (__call__ self ts1), w) = (FList l g, w1) →
     ∃ w2, exec self sched (collect (__call__ self ts2), w) = (FList l g, w2)).
Proof.
  intros Hd Hi Hts. split.
  - intros t1 t2 e wid gid m tr H1 He H2. split.
    + unfold slot. by rewrite H1, H2, He.
    + rewrite Hi, !run_task_eval. simpl. rewrite H1, H2, He. by eexists _, _.
  - intros l g w1 Hex. rewrite collect_async in * by done.
    pose proof (exec_sim self sched (consume (_call_async self ts1), w)
                  (consume (_call_async self ts2), w)) as Hsim.
    pose proof (exec_drained self sched (consume (_call_async self ts1)) w I) as Hdr.
    rewrite Hex in Hsim, Hdr. simpl in Hdr. subst g.
    destruct Hsim as [Hf _]; [split; [by split|apply world_sim_refl]|].
    destruct (exec self sched (consume (_call_async self ts2), w)) as [f2 w2].
    simpl in Hf. destruct f2 as [|l2 g2| | | | |]; try done.
    destruct Hf as [<- Hg]. destruct g2; try done. by exists w2.
Qed.

Lemma failure_slot_is_None_witness :
  let self := instance 2 1 None false true true in
  (∀ t1 t2 e wid gid m tr,
     t1 wid gid = Raise e → is_Exception e = true → t2 wid gid = Ret VNone →
     slot (t1 wid gid) = slot (t2 wid gid) ∧
     ∃ tr1 tr2,
       _run_task t1 (ignore_errors self) wid gid (m, tr) =
       Some (Ret tt,
             (MP (pool_init_fn m) (gpu_queue m) (result_queue m ++ [VNone]) (inqueue m)
                 (workers m) (closed m), tr1)) ∧
       _run_task t2 (ignore_errors self) wid gid (m, tr) =
       Some (Ret tt,
             (MP (pool_init_fn m) (gpu_queue m) (result_queue m ++ [VNone]) (inqueue m)
                 (workers m) (closed m), tr2))) ∧
  (∀ l g w1,
     exec self (seq 0 100)
          (collect (__call__ self [task_identity; task_failing; task_identity]),
           pool_world 2 1 None) = (FList l g, w1) →
     ∃ w2, exec self (seq 0 100)
                (collect (__call__ self [task_identity; task_none; task_identity]),
                 pool_world 2 1 None) = (FList l g, w2)).
Proof.
  intros self.
  apply (failure_slot_is_None self
           [task_identity; task_failing; task_identity]
           [task_identity; task_none; task_identity]
           (pool_world 2 1 None) (seq 0 100)).
  - reflexivity.
  - reflexivity.
  - repeat constructor; intros ? ?; reflexivity.
Defined.

(** * Further properties *)

(** ** The result queue *)

Lemma worker_trans_published i m tr w' :
  worker_trans i (World (Some m) tr) w' →
  ∃ m' vs, mp w' = Some m' ∧ result_queue m' = result_queue m ++ vs.
Proof.
  inversion 1; subst; simpl; eexists _, _; (split; [done|]); simpl;
    first [done | by rewrite app_nil_r].
Qed.

Lemma worker_step_published i w m w' :
  mp w = Some m → worker_step i w = Some w' →
  ∃ m' vs, mp w' = Some m' ∧ result_queue m' = result_queue m ++ vs.
Proof.
  destruct w as [ow tr]. simpl. intros -> Hw.
  apply worker_step_trans in Hw. by eapply worker_trans_published.
Qed.

Lemma fifo_inv_step self stale a c c' :
  fifo_inv stale c → step self a c = Some c' → fifo_inv stale c'.
Proof.
  destruct c as [f w], c' as [f' w']. unfold fifo_inv. simpl. intros Hf Hstep.
  destruct a as [|i]; simpl in *.
  - destruct f as [g acc| | | | | |]; try done; simpl in Hstep.
    + destruct g as [[|t rest] n|[|k]|k|ts|rest|]; try done; simpl in Hstep;
        destruct Hf as (m & pub & Hm & Hq); rewrite ?Hm in Hstep.
      * simplify_eq. by exists m, pub.
      * destruct (closed m); simplify_eq; [done|]. by eexists _, pub.
      * simplify_eq. by exists m, pub.
      * destruct (result_queue m) as [|v q] eqn:Hrq; simplify_eq.
        eexists _, pub. split; [done|]. simpl. by rewrite <- app_assoc.
      * simplify_eq. by exists m, pub.
      * simplify_eq. by exists m, pub.
    + destruct (mp w); by simplify_eq.
    + destruct (mp w) as [m|]; [|done]. destruct (forallb _ _); by simplify_eq.
  - destruct (worker_step i w) as [w1|] eqn:Hw; simplify_eq/=.
    assert (∀ acc, (∃ m pub, mp w = Some m ∧ acc ++ result_queue m = stale ++ pub) →
                   ∃ m pub, mp w' = Some m ∧ acc ++ result_queue m = stale ++ pub) as Hkeep.
    { intros acc (m & pub & Hm & Hq).
      destruct (worker_step_published _ _ _ _ Hm Hw) as (m' & vs & Hm' & Hrq).
      exists m', (pub ++ vs). split; [done|].
      rewrite Hrq, (app_assoc acc), Hq. by rewrite <- app_assoc. }
    destruct f' as [g acc|l g| | | | |]; try done; [|by apply Hkeep].
    destruct g; try done; by apply Hkeep.
Qed.

(** X1 (stale results come first).  In async mode the result queue belongs
    to the instance, not to the call: whatever the tasks and the schedule,
    the list a dispatch returns, followed by what it leaves on the queue, is
    what was on the queue when it started followed by what was published
    meanwhile.  So a dispatch that finds at least as many results on the
    queue as it submits tasks (left there by a stream that was not drained)
    returns those, and none of its own. *)
Theorem stale_results_first self tasks w m sched l g :
  debug_mode self = false → mp w = Some m →
  (exec self sched (collect (__call__ self tasks), w)).1 = FList l g →
  (∃ m' pub, mp (exec self sched (collect (__call__ self tasks), w)).2 = Some m' ∧
             l ++ result_queue m' = result_queue m ++ pub) ∧
  (length l ≤ length (result_queue m) → l = take (length l) (result_queue m)).
Proof.
  intros Hd Hm Hex.
  assert (fifo_inv (result_queue m) (exec self sched (collect (__call__ self tasks), w)))
    as Hinv.
  { apply exec_invariant; [intros; by eapply fifo_inv_step|].
    rewrite collect_async by done. unfold fifo_inv. simpl. exists m, []. by rewrite app_nil_r. }
  unfold fifo_inv in Hinv. rewrite Hex in Hinv. destruct Hinv as (m' & pub & Hm' & Hq).
  split; [by exists m', pub|]. intros Hlen.
  apply (f_equal (take (length l))) in Hq.
  rewrite take_app_length, take_app_le in Hq by done. done.
Qed.

Lemma stale_results_first_witness :
  let self := instance 1 1 None true true true in
  let w := session self [([task_none; task_none], [0; 0; 0; 1; 1; 1; 1; 1])]
                   (pool_world 1 1 None) in
  let c := exec self (seq 0 30) (collect (__call__ self [task_identity; task_identity]), w) in
  ∃ m, mp w = Some m ∧ result_queue m = [VNone; VNone] ∧
       (∃ m' pub, mp c.2 = Some m' ∧
                  [VNone; VNone] ++ result_queue m' = result_queue m ++ pub) ∧
       (length [VNone; VNone] ≤ length (result_queue m) →
        [VNone; VNone] = take (length [VNone; VNone]) (result_queue m)).
Proof.
  intros self w c. eexists. split; [vm_compute; reflexivity|].
  split; [reflexivity|].
  apply (stale_results_first self [task_identity; task_identity] w _ (seq 0 30)
           [VNone; VNone] GDone).
  - reflexivity.
  - vm_compute. reflexivity.
  - vm_compute. reflexivity.
Defined.

Lemma balanced_step self N a c c' :
  dispatch_inv N c → balanced c → step self a c = Some c' → balanced c'.
Proof.
  destruct c as [f w], c' as [f' w'].
  intros (m & Hm & Hsv & Hf) (m0 & Hm0 & Hb) Hstep. simpl in *.
  rewrite Hm in Hm0. simplify_eq. destruct a as [|i]; simpl in *.
  - destruct f as [g acc| | | | | |]; try done. destruct Hf as (Hg & _).
    unfold main_step, resume in Hstep. rewrite Hm in Hstep.
    pose proof (sv_open _ Hsv) as Hopen.
    destruct g as [[|t rest] n|[|k]|k|ts|[|t rest]|]; simpl in *;
      try done; rewrite ?Hopen in Hstep; unfold balanced, supply in *; simpl.
    + simplify_eq. by exists m0.
    + simplify_eq. eexists. split; [done|]. simpl. rewrite length_app. simpl. lia.
    + simplify_eq. by exists m0.
    + destruct (result_queue m0) as [|v q] eqn:Hrq; [done|]. simplify_eq.
      eexists. split; [done|]. simpl in *. lia.
    + simplify_eq. by exists m0.
  - destruct (worker_step i w) as [w1|] eqn:Hw; simplify_eq/=.
    destruct w as [ow tr]. simpl in *. subst ow. apply worker_step_trans in Hw.
    destruct (worker_trans_serving _ _ _ _ Hsv Hw) as (m' & Hm' & _ & Hsup & _).
    exists m'. split; [done|]. simpl. congruence.
Qed.

(** X2 (a drained dispatch leaves nothing behind).  On a serving pool with
    an empty result queue, no queued job and no running job, a dispatch of
    catchable tasks that is collected to the end returns one element per
    task and leaves the pool as it found it: nothing on the result queue,
    nothing queued, nothing running.  The next dispatch cannot receive
    results of this one. *)
Theorem drained_dispatch_clean self tasks w m sched :
  debug_mode self = false → mp w = Some m → serving m → clean m →
  Forall catchable tasks →
  mu (collect (__call__ self tasks), w) ≤ length sched →
  ∃ l w' m', exec self sched (collect (__call__ self tasks), w) = (FList l GDone, w') ∧
             length l = length tasks ∧
             mp w' = Some m' ∧ serving m' ∧ clean m'.
Proof.
  intros Hd Hm Hsv (Hrq & Hinq & Hbusy) Hts Hmu. rewrite collect_async in * by done.
  pose proof (exec_quiescent self sched _ Hmu) as Hq.
  pose proof (exec_invariant self (λ c, dispatch_inv (length tasks) c ∧ balanced c) sched
                (consume (_call_async self tasks), w)) as Hinv.
  destruct Hinv as [Hinv Hbal].
  - intros a c c' [H1 H2] Hs. split; [by eapply dispatch_inv_step|by eapply balanced_step].
  - split.
    + exists m. simpl. split_and!; try done. lia.
    + exists m. split; [done|]. unfold supply. rewrite Hrq, Hinq, Hbusy. done.
  - destruct (dispatch_inv_quiescent _ _ _ Hinv Hq) as (l & Hl & Hlen).
    destruct (exec self sched _) as [f w']. simpl in *. subst f.
    destruct Hinv as (m' & Hm' & Hsv' & _).
    destruct Hbal as (m'' & Hm'' & Hsup). simpl in *. rewrite Hm' in Hm''. simplify_eq.
    exists l, w', m''. split_and!; try done. unfold supply in Hsup.
    unfold clean. split_and!; [| |lia].
    + destruct (result_queue m''); [done|simpl in Hsup; lia].
    + destruct (inqueue m''); [done|simpl in Hsup; lia].
Qed.

Lemma drained_dispatch_clean_witness :
  let self := instance 2 2 None false true true in
  let tasks := [task_identity; task_failing; task_none] in
  let m := MP None (identities 2 2) [] [] (replicate (Z.to_nat (2 * 2)) WSpawned) false in
  ∃ l w' m', exec self (seq 0 100) (collect (__call__ self tasks), pool_world 2 2 None)
             = (FList l GDone, w') ∧
             length l = length tasks ∧
             mp w' = Some m' ∧ serving m' ∧ clean m'.
Proof.
  intros self tasks m.
  apply (drained_dispatch_clean self tasks (pool_world 2 2 None) m (seq 0 100)).
  - reflexivity.
  - reflexivity.
  - apply (init_serving 2 2 None); [lia|lia|exact I].
  - repeat split.
  - repeat constructor.
  - vm_compute. lia.
Defined.

(** ** Disposal and the jobs still in the pool *)

Lemma forallb_exited_sums l :
  forallb is_exited l = true →
  sum_list_with busy l = 0 ∧ sum_list_with exited l = length l.
Proof.
  induction l as [|s l IH]; simpl; [done|].
  destruct s; simpl; try done. intros H. destruct (IH H) as [-> ->]. done.
Qed.

Lemma forallb_exited_lookup l i s :
  forallb is_exited l = true → l !! i = Some s → s = WExited.
Proof.
  revert i. induction l as [|s0 l IH]; intros [|i] Hall Hi; simplify_eq/=.
  - by destruct s.
  - apply (IH i); [|done]. by destruct s0.
Qed.

Lemma winding_down_step self s a c c' :
  winding_down s c → step self a c = Some c' → winding_down s c'.
Proof.
  destruct c as [f w], c' as [f' w'].
  intros (m & Hm & Hok & Hs & Hlen & Hex & Hf) Hstep. simpl in *.
  destruct a as [|i]; simpl in *.
  - destruct f; try done; simpl in Hstep; rewrite Hm in Hstep.
    + simplify_eq. eexists. split; [done|]. simpl.
      split_and!; try done. by destruct Hok.
    + destruct (forallb is_exited (workers m)) eqn:Hall; simplify_eq/=.
      exists m. by split_and!.
  - destruct (worker_step i w) as [w1|] eqn:Hws; simplify_eq/=.
    destruct w as [ow tr]. simpl in *. subst ow. apply worker_step_trans in Hws.
    destruct (worker_trans_ok _ _ _ _ Hok Hws)
      as (m' & Hm' & Hok' & _ & Hc' & Hl' & Hs' & _).
    exists m'. split_and!; try done; try congruence.
    + destruct Hok as [Hinit _ _ Hb].
      inversion Hws as [? ? a b q evs s' Hi Hg He|? ? a b j q Hi Hj|? ? a b Hi Hj Hc
                       |? ? a b j vs evs s' Hi He]; subst; simpl in *; simplify_eq/=;
        pose proof (λ y, sum_list_with_insert exited _ _ _ y Hi) as Hsum.
      * apply (init_effect_ok _ _ _ _ _ Hinit) in He as ->.
        specialize (Hsum (WReady a b)). simpl in Hsum. intros ?. apply Hex. lia.
      * specialize (Hsum (WBusy a b j)). simpl in Hsum. intros ?.
        rewrite Hex in Hj by lia. done.
      * done.
      * pose proof (Forall_lookup_1 _ _ _ _ Hb Hi) as Hjob. simpl in Hjob.
        apply (run_effect_ok _ _ _ _ _ _ Hjob) in He as [-> _].
        specialize (Hsum (WReady a b)). simpl in Hsum. intros ?. apply Hex. lia.
    + destruct f'; try done; try congruence.
      exfalso. inversion Hws as [? ? a b q evs s' Hi|? ? a b j q Hi|? ? a b Hi
                                |? ? a b j vs evs s' Hi]; subst;
        by pose proof (forallb_exited_lookup _ _ _ Hf Hi).
Qed.

Lemma winding_down_quiescent self s c :
  winding_down s c → enabled self c = [] → c.1 = FIdle.
Proof.
  destruct c as [f [ow tr]]. intros (m & Hm & Hok & _ & _ & _ & Hf) Hen.
  simpl in *. subst ow.
  pose proof (enabled_main _ _ Hen) as Hmain.
  destruct f; simpl in Hmain; try done. exfalso.
  destruct (forallb is_exited (workers m)) eqn:Hex; [done|].
  apply forallb_exited_false in Hex as (i & s0 & Hi & Hs0).
  destruct (closed_progress m tr i s0 Hok Hf Hi Hs0) as [w' Hw'].
  pose proof (enabled_worker _ _ i Hen) as Hnone. simpl in Hnone. congruence.
Qed.

(** X3 (disposal lets the pool finish).  [__del__] closes the pool and joins
    it; it does not terminate it.  On a serving pool, disposal returns under
    every schedule, and when it does every process has left, the job queue
    is empty, and every job that was queued or running when disposal began
    has put its slot on the result queue. *)
Theorem disposal_finishes_jobs self w m sched :
  debug_mode self = false → mp w = Some m → serving m →
  mu (__del__ self, w) ≤ length sched →
  ∃ w' m', exec self sched (__del__ self, w) = (FIdle, w') ∧
           mp w' = Some m' ∧
           forallb is_exited (workers m') = true ∧
           inqueue m' = [] ∧
           length (result_queue m') = supply m.
Proof.
  intros Hd Hm Hsv Hmu.
  pose proof (exec_quiescent self sched _ Hmu) as Hq.
  assert (winding_down (supply m) (exec self sched (__del__ self, w))) as Hinv.
  { apply exec_invariant; [intros; by eapply winding_down_step|].
    unfold __del__. rewrite Hd. simpl. exists m. destruct Hsv as [Hok Hopen Hsome Hal].
    split_and!; try done. lia. }
  pose proof (winding_down_quiescent _ _ _ Hinv Hq) as Hf.
  destruct (exec self sched (__del__ self, w)) as [f' w']. simpl in *. subst f'.
  destruct Hinv as (m' & Hm' & _ & Hs & Hlen & Hex & Hall). simpl in *.
  destruct (forallb_exited_sums _ Hall) as [Hb He].
  exists w', m'. split_and!; try done; [apply Hex; lia|].
  unfold supply in Hs at 1. rewrite Hb, Hex in Hs by lia. simpl in Hs. lia.
Qed.

Lemma disposal_finishes_jobs_witness :
  let self := instance 1 2 None true true true in
  let w := session self [([task_identity; task_failing; task_none], [0; 0; 0; 0])]
                   (pool_world 1 2 None) in
  ∃ m, mp w = Some m ∧ supply m = 3 ∧
       ∃ w' m', exec self (seq 0 100) (__del__ self, w) = (FIdle, w') ∧
                mp w' = Some m' ∧
                forallb is_exited (workers m') = true ∧
                inqueue m' = [] ∧
                length (result_queue m') = supply m.
Proof.
  intros self w. eexists. split; [vm_compute; reflexivity|]. split; [reflexivity|].
  apply (disposal_finishes_jobs self w _ (seq 0 100)).
  - reflexivity.
  - vm_compute. reflexivity.
  - assert (serving_world w) as (m & Hm & Hsv).
    { apply session_serving; [repeat constructor|].
      apply pool_world_serving; [lia|lia|exact I]. }
    vm_compute in Hm. injection Hm as <-. exact Hsv.
  - vm_compute. lia.
Defined.

(** ** Identities held by the processes *)

Lemma task_idents_app tr1 tr2 : task_idents (tr1 ++ tr2) = task_idents tr1 ++ task_idents tr2.
Proof. apply omap_app. Qed.

Lemma dispatch_events_tasks evs :
  Forall dispatch_event evs →
  Forall (λ ev, match ev with EvTask _ a b => (a, b) = (0, 0)%Z | _ => True end) evs →
  Forall (λ id, id = (0, 0)%Z) (task_idents evs).
Proof.
  intros _. induction 1 as [|ev evs Hev _ IH]; [constructor|].
  destruct ev; simpl; try done. by constructor.
Qed.

Lemma resume_task_idents self g w g' w' sg :
  resume self g w = Some (g', w', sg) →
  ∃ evs, trace w' = trace w ++ evs ∧ Forall (λ id, id = (0, 0)%Z) (task_idents evs).
Proof.
  unfold resume. intros H.
  destruct g as [[|t rest] n|[|k]|k|ts|[|t rest]|]; simpl in *;
    repeat case_match; simplify_eq/=;
    try (by exists []; rewrite app_nil_r);
    (eexists; split; [done|]); by destruct (progressbar self); repeat constructor.
Qed.

Lemma main_step_task_idents self f w f' w' :
  main_step self f w = Some (f', w') →
  ∃ evs, trace w' = trace w ++ evs ∧ claimed evs = [] ∧
         Forall (λ id, id = (0, 0)%Z) (task_idents evs) ∧
         pool_same (mp w) (mp w').
Proof.
  intros Hstep.
  destruct (main_step_effect _ _ _ _ _ Hstep) as (evs & Htr & Hev & Hsame).
  exists evs. split_and!; try done; [by apply coordinator_events in Hev as (? & _)|].
  unfold main_step in Hstep. destruct f as [g acc| | | | | |]; try done.
  - destruct (resume self g w) as [[[g1 w1] sg]|] eqn:Hr; [|done].
    apply resume_task_idents in Hr as (evs' & Htr' & Hts).
    assert (w1 = w') as -> by (destruct sg as [[?| |?]|]; by simplify_eq).
    rewrite Htr in Htr'. by apply app_inv_head in Htr' as ->.
  - destruct (mp w) as [m|]; injection Hstep as _ <-; simpl in Htr.
    + apply app_inv_head in Htr as <-. by repeat constructor.
    + rewrite <- (app_nil_r (trace w)) in Htr at 1. by apply app_inv_head in Htr as <-.
  - destruct (mp w) as [m|]; [|done]. destruct (forallb _ _); [|done].
    injection Hstep as _ <-; simpl in Htr.
    apply app_inv_head in Htr as <-. by repeat constructor.
Qed.

Lemma holds_insert m tr tr' i s s' gq rq iq :
  holds m tr → workers m !! i = Some s →
  (ident s' = None ∨ ident s' = ident s) →
  (∀ id, id ∈ claimed tr → id ∈ claimed tr') →
  holds (MP (pool_init_fn m) gq rq iq (<[i := s']> (workers m)) (closed m)) tr'.
Proof.
  intros [Hcl Hinj] Hi Hs Hsub. split; simpl.
  - intros i' s0 id Hi' Hid. apply Hsub.
    apply list_lookup_insert_Some in Hi' as [(-> & -> & _)|[Hne Hi']]; [|by eapply Hcl].
    destruct Hs as [Hs|Hs]; [congruence|]. rewrite Hs in Hid. by eapply Hcl.
  - intros i' j' s1 s2 id H1 H2 Hid1 Hid2.
    apply list_lookup_insert_Some in H1 as [(-> & -> & _)|[Hne1 H1]];
      apply list_lookup_insert_Some in H2 as [(-> & -> & _)|[Hne2 H2]]; try done.
    + destruct Hs as [Hs|Hs]; [congruence|]. rewrite Hs in Hid1. by eapply Hinj.
    + destruct Hs as [Hs|Hs]; [congruence|]. rewrite Hs in Hid2. by eapply Hinj.
    + by eapply Hinj.
Qed.

Lemma ident_inv_step self ids a c c' :
  ident_inv ids c.2 → step self a c = Some c' → ident_inv ids c'.2.
Proof.
  destruct c as [f w], c' as [f' w']. simpl.
  intros (m & Hm & Hnd & H0 & Hcl & Hh & Hts) Hstep.
  destruct a as [|i]; simpl in *.
  - apply main_step_task_idents in Hstep as (evs & Htr & Hc & Ht & Hsame).
    rewrite Hm in Hsame. unfold pool_same in Hsame.
    destruct (mp w') as [m'|] eqn:Hm'; [|done]. destruct Hsame as (Hs1 & Hs2 & Hs3).
    exists m'. rewrite Htr, claimed_app, task_idents_app, Hc, app_nil_r, Hs2.
    split_and!; try done.
    + destruct Hh as [Hh1 Hh2]. split; rewrite Hs3; [|done].
      intros i s id Hi Hid. rewrite claimed_app. apply elem_of_app. left.
      by eapply Hh1.
    + apply Forall_app. split; [done|]. eapply Forall_impl; [done|]. by intros ? ->.
  - destruct (worker_step i w) as [w1|] eqn:Hw; simplify_eq/=.
    destruct w as [ow tr]. simpl in *. subst ow. apply worker_step_trans in Hw.
    inversion Hw as [? ? a b q evs s' Hi Hg He|? ? a b j q Hi Hj|? ? a b Hi Hj Hc
                    |? ? a b j vs evs s' Hi He]; subst;
      (eexists; split; [done|]); simpl.
    + pose proof He as Hst. apply init_effect_state in Hst.
      assert (task_idents evs = []) as Hte.
      { revert He. unfold init_effect.
        destruct (pool_init_fn m) as [fi|]; [destruct (fi a b)|];
          intros; by simplify_eq. }
      apply init_effect_events in He as (He1 & _ & _ & _).
      rewrite (claimed_app _ (_ :: _)), (task_idents_app _ (_ :: _)). simpl.
      rewrite He1, Hte, app_nil_r.
      split_and!; try done; [by rewrite Hg, <- app_assoc|].
      assert (claimed (tr ++ EvClaim a b :: evs) = claimed tr ++ [(a, b)]) as Hcl'.
      { rewrite claimed_app. simpl. by rewrite He1. }
      destruct Hh as [Hcl0 Hinj]. split; simpl; rewrite ?Hcl'.
      * intros i' s0 id Hi' Hid.
        apply list_lookup_insert_Some in Hi' as [(-> & -> & _)|[Hne Hi']].
        -- destruct Hst as [-> | ->]; simplify_eq/=.
           apply elem_of_app. right. by left.
        -- apply elem_of_app. left. by eapply Hcl0.
      * assert ((a, b) ∉ claimed tr) as Hfresh.
        { apply NoDup_app in Hnd as (_ & Hdis & _).
          intros Hin. apply (Hdis _ Hin). rewrite Hg. by left. }
        intros i' j' s1 s2 id H1 H2 Hid1 Hid2.
        apply list_lookup_insert_Some in H1 as [(-> & -> & _)|[Hne1 H1]];
          apply list_lookup_insert_Some in H2 as [(-> & -> & _)|[Hne2 H2]]; try done.
        -- destruct Hst as [-> | ->]; simplify_eq/=.
           destruct Hfresh. by eapply Hcl0.
        -- destruct Hst as [-> | ->]; simplify_eq/=.
           destruct Hfresh. by eapply Hcl0.
        -- by eapply Hinj.
    + split_and!; try done. eapply holds_insert; [done|done|by right|done].
    + split_and!; try done. eapply holds_insert; [done|done|by left|done].
    + assert (task_idents evs = [(a, b)] ∧ claimed evs = [] ∧
              (ident s' = None ∨ ident s' = Some (a, b))) as (Hte & Hce & Hs').
      { unfold run_effect in He.
        destruct (job_func j a b) as [v|e]; [|destruct (is_Exception e)];
          simplify_eq; simpl; auto. }
      rewrite claimed_app, task_idents_app, Hce, Hte, app_nil_r.
      split_and!; try done.
      * eapply holds_insert; [done|done|by destruct Hs'; auto|].
        intros id Hid. rewrite claimed_app. apply elem_of_app. by left.
      * apply Forall_app. split; [done|]. repeat constructor.
        apply elem_of_app. left. destruct Hh as [Hcl0 _].
        by eapply Hcl0.
Qed.

Lemma ident_inv_exec self ids sched f w :
  ident_inv ids w → ident_inv ids (exec self sched (f, w)).2.
Proof.
  intros Hw. apply (exec_invariant self (λ c, ident_inv ids c.2)); [|done].
  intros. by eapply ident_inv_step.
Qed.

Lemma ident_inv_session self ids calls w :
  ident_inv ids w → ident_inv ids (session self calls w).
Proof.
  revert w. induction calls as [|[tasks sched] calls IH]; intros w Hw; simpl; [done|].
  by apply IH, ident_inv_exec.
Qed.

Lemma ident_inv_init D W o :
  (1 ≤ D)%Z → (1 ≤ W)%Z → ident_inv (identities D W) (pool_world D W o).
Proof.
  intros HD HW. eexists. split; [done|]. simpl. split_and!; try done.
  - apply NoDup_identities.
  - apply elem_of_identities. exists 0%Z. lia.
  - split.
    + intros i s id Hi. apply lookup_replicate in Hi as [-> _]. done.
    + intros i j s s' id Hi. apply lookup_replicate in Hi as [-> _]. done.
Qed.

(** X4 (identities are exclusive).  On an instance built with
    [n_gpu = D >= 1] and [n_workers_per_gpu = W >= 1], after any number of
    dispatches, complete or cut short, whatever the tasks and the schedules:
    two pool processes that hold the same [(worker_id, gpu_id)] in their
    globals are the same process, and an identity that is held is one of
    the pairs [__init__] put on the queue. *)
Theorem identities_exclusive D W o rg pb ign calls i j id :
  (1 ≤ D)%Z → (1 ≤ W)%Z →
  let w := session (instance D W o rg pb ign) calls (pool_world D W o) in
  worker_ident w i = Some id → worker_ident w j = Some id →
  i = j ∧ id ∈ identities D W.
Proof.
  intros HD HW w Hi Hj.
  destruct (ident_inv_session (instance D W o rg pb ign) (identities D W) calls
              (pool_world D W o) (ident_inv_init D W o HD HW))
    as (m & Hm & _ & _ & Hcl & [Hin Hinj] & _).
  fold w in Hm. unfold worker_ident in Hi, Hj. rewrite Hm in Hi, Hj.
  destruct (workers m !! i) as [s|] eqn:Hsi; [|done].
  destruct (workers m !! j) as [s'|] eqn:Hsj; [|done].
  split; [by eapply Hinj|].
  rewrite <- Hcl. apply elem_of_app. left. by eapply Hin.
Qed.

Lemma identities_exclusive_witness :
  let w := session (instance 2 2 None false true true)
             [([task_identity; task_identity; task_identity], seq 0 60)]
             (pool_world 2 2 None) in
  worker_ident w 3 = Some (3, 1)%Z ∧ (3 = 3 ∧ (3, 1)%Z ∈ identities 2 2).
Proof.
  intros w. split; [by vm_compute|].
  apply (identities_exclusive 2 2 None false true true
           [([task_identity; task_identity; task_identity], seq 0 60)] 3 3 (3, 1)%Z);
    try lia; by vm_compute.
Defined.

(** X5 (tasks see identities of the pool).  On an instance built with
    [n_gpu = D >= 1] and [n_workers_per_gpu = W >= 1], every call of a task,
    in any dispatch and under any schedule, passes a [(worker_id, gpu_id)]
    with [0 <= gpu_id < D] and
    [gpu_id * W <= worker_id < (gpu_id + 1) * W]: the pool never calls a
    task with an identity that [__init__] did not hand out. *)
Theorem tasks_see_pool_identities D W o rg pb ign calls wid gid :
  (1 ≤ D)%Z → (1 ≤ W)%Z →
  (wid, gid) ∈ task_idents (trace (session (instance D W o rg pb ign) calls
                                      (pool_world D W o))) →
  (0 ≤ gid < D ∧ gid * W ≤ wid < (gid + 1) * W)%Z.
Proof.
  intros HD HW Hin.
  destruct (ident_inv_session (instance D W o rg pb ign) (identities D W) calls
              (pool_world D W o) (ident_inv_init D W o HD HW))
    as (m & _ & _ & _ & _ & _ & Hts).
  pose proof (proj1 (Forall_forall _ _) Hts _ Hin) as Hid. simpl in Hid.
  apply elem_of_identities in Hid as (local & Hg & Hl & ->). lia.
Qed.

Lemma tasks_see_pool_identities_witness :
  (1, 0)%Z ∈ task_idents (trace (session (instance 2 2 None false true true)
                                   [([task_identity; task_identity], [0; 0; 0; 1; 1; 1; 1; 1; 1; 1])]
                                   (pool_world 2 2 None))) ∧
  (0 ≤ 0 < 2 ∧ 0 * 2 ≤ 1 < (0 + 1) * 2)%Z.
Proof.
  assert ((1, 0)%Z ∈ task_idents (trace (session (instance 2 2 None false true true)
                                   [([task_identity; task_identity], [0; 0; 0; 1; 1; 1; 1; 1; 1; 1])]
                                   (pool_world 2 2 None)))) as Hin.
  { vm_compute. repeat constructor. }
  split; [exact Hin|].
  apply (tasks_see_pool_identities 2 2 None false true true
           [([task_identity; task_identity], [0; 0; 0; 1; 1; 1; 1; 1; 1; 1])] 1 0); [lia|lia|exact Hin].
Defined.

Lemma ident_stable_step self a c c' i id :
  serving_world c.2 → step self a c = Some c' →
  worker_ident c.2 i = Some id → worker_ident c'.2 i = Some id.
Proof.
  destruct c as [f w], c' as [f' w']. simpl. intros (m & Hm & Hsv) Hstep.
  unfold worker_ident. rewrite Hm.
  destruct a as [|i0]; simpl in *.
  - apply main_step_effect in Hstep as (_ & _ & _ & Hsame).
    rewrite Hm in Hsame. unfold pool_same in Hsame.
    destruct (mp w') as [m'|]; [|done]. destruct Hsame as (_ & _ & ->). done.
  - destruct (worker_step i0 w) as [w1|] eqn:Hw; simplify_eq/=.
    destruct w as [ow tr]. simpl in *. subst ow. apply worker_step_trans in Hw.
    destruct (workers m !! i) as [s|] eqn:Hs; [|done]. intros Hid.
    assert (∀ s0 s', workers m !! i0 = Some s0 →
                     (ident s0 = Some id → ident s' = Some id) →
                     match <[i0 := s']> (workers m) !! i with
                     | Some s1 => ident s1
                     | None => None
                     end = Some id) as Hins.
    { intros s0 s' Hi0 Himp. destruct (decide (i0 = i)) as [->|Hne].
      - rewrite list_lookup_insert_eq by (by eapply lookup_lt_Some).
        apply Himp. congruence.
      - by rewrite list_lookup_insert_ne, Hs. }
    inversion Hw as [? ? a b q evs s' Hi Hg He|? ? a b j q Hi Hj|? ? a b Hi Hj Hc
                    |? ? a b j vs evs s' Hi He]; subst; simpl.
    + by eapply Hins.
    + by eapply Hins.
    + rewrite (sv_open _ Hsv) in Hc. done.
    + eapply Hins; [done|]. intros Hid0. simpl in Hid0.
      pose proof (proj1 (Forall_forall _ _) (ok_busy _ (sv_ok _ Hsv)) _
                    (list_elem_of_lookup_2 _ _ _ Hi) a b) as Hcatch.
      simpl in Hcatch, Hid. unfold run_effect in He.
      destruct (job_func j a b) as [v|e]; [|rewrite Hcatch in He]; by simplify_eq.
Qed.

(** X6 (an identity is kept).  On a serving pool, through any number of
    dispatches of tasks that return or fail with an instance of
    [Exception], under any schedules: a process that holds a
    [(worker_id, gpu_id)] holds the same pair afterwards.  The globals
    [_init_worker] sets are set once per process. *)
Theorem identity_stable self calls w i id :
  serving_world w →
  Forall (λ c, Forall catchable c.1) calls →
  worker_ident w i = Some id →
  worker_ident (session self calls w) i = Some id.
Proof.
  intros Hw Hcalls. revert w Hw.
  induction Hcalls as [|[tasks sched] calls Hts _ IH]; intros w Hw Hid; simpl; [done|].
  pose proof (exec_invariant self
                (λ c, (frame_ok c.1 ∧ serving_world c.2) ∧ worker_ident c.2 i = Some id)
                sched (collect (__call__ self tasks), w)) as Hinv.
  destruct Hinv as [[_ Hsv] Hid'].
  - intros a c c' [[Hf Hs] Hi] Hstep.
    split; [by eapply serving_step|by eapply ident_stable_step].
  - split; [split; [by apply collect_call_ok|done]|done].
  - by apply IH.
Qed.

Lemma identity_stable_witness :
  let self := instance 1 2 None false true true in
  let w := session self [([task_none], seq 0 30)] (pool_world 1 2 None) in
  worker_ident w 1 = Some (1, 0)%Z ∧
  worker_ident (session self [([task_identity; task_failing; task_none], [0; 1; 0; 2; 1; 1; 0])]
                  w) 1 = Some (1, 0)%Z.
Proof.
  intros self w.
  assert (worker_ident w 1 = Some (1, 0)%Z) as Hid by (by vm_compute).
  split; [exact Hid|].
  apply (identity_stable self); [|repeat constructor|exact Hid].
  apply session_serving; [repeat constructor|].
  apply pool_world_serving; [lia|lia|exact I].
Defined.

(** ** A pool whose processes never get ready *)

Lemma starved_step self a c c' : starved c → step self a c = Some c' → starved c'.
Proof.
  destruct c as [f w], c' as [f' w']. simpl.
  intros (m & Hm & Hws & Hrq & Hcl & Hq & Ht & Hf) Hstep.
  destruct a as [|i]; simpl in *.
  - destruct f as [g acc| | | | | |]; try done.
    destruct g as [rest n|k| | | |]; try done; destruct acc; try done.
    + unfold main_step, resume in Hstep. rewrite Hm in Hstep.
      destruct rest as [|t rest]; simpl in *.
      * simplify_eq. exists m. simpl.
        rewrite !task_idents_app, Ht.
        split_and!; try done; try lia. by destruct (progressbar self).
      * rewrite Hcl in Hstep. simplify_eq. eexists. simpl.
        split_and!; try done. lia.
    + unfold main_step, resume in Hstep. rewrite Hm in Hstep.
      destruct k as [|k]; [lia|]. by rewrite Hrq in Hstep.
  - destruct (worker_step i w) as [w1|] eqn:Hw; simplify_eq/=.
    destruct w as [ow tr]. simpl in *. subst ow. apply worker_step_trans in Hw.
    inversion Hw as [? ? a b q evs s' Hi Hg He|? ? a b j q Hi Hj|? ? a b Hi Hj Hc
                    |? ? a b j vs evs s' Hi He]; subst;
      try (by pose proof (proj1 (Forall_lookup _ _) Hws _ _ Hi)).
    destruct Hq as [Hq|Hq]; [congruence|].
    pose proof Hq as (fi & Hfi & Hraise).
    destruct (Hraise a b) as [e He']. unfold init_effect in He.
    rewrite Hfi, He' in He. simplify_eq.
    eexists. simpl. split; [done|]. simpl.
    rewrite task_idents_app, Ht.
    split_and!; try done; [by apply Forall_insert|by right].
Qed.

Lemma unclaimed_step self a c c' :
  starved c → unclaimed c.2 → step self a c = Some c' → unclaimed c'.2.
Proof.
  destruct c as [f w], c' as [f' w']. simpl.
  intros (m & Hm & Hws & _) (m0 & Hm0 & Hg & Hc) Hstep. simpl in Hm.
  assert (m0 = m) as -> by congruence.
  destruct a as [|i]; simpl in *.
  - apply main_step_task_idents in Hstep as (evs & Htr & Hce & _ & Hsame).
    rewrite Hm in Hsame. unfold pool_same in Hsame.
    destruct (mp w') as [m'|] eqn:Hm'; [|done]. destruct Hsame as (_ & Hgq & _).
    exists m'. rewrite Htr, claimed_app, Hc, Hce. split_and!; [done|congruence|done].
  - destruct (worker_step i w) as [w1|] eqn:Hw; simplify_eq/=.
    destruct w as [ow tr]. simpl in *. subst ow. apply worker_step_trans in Hw.
    inversion Hw as [? ? a b q evs s' Hi Hgq He|? ? a b j q Hi Hj|? ? a b Hi Hj Hcl
                    |? ? a b j vs evs s' Hi He]; subst;
      try (by pose proof (proj1 (Forall_lookup _ _) Hws _ _ Hi)).
    congruence.
Qed.

Lemma starved_exec self sched c :
  starved c →
  ∃ g w', exec self sched c = (FComp g [], w') ∧ g ≠ GDone ∧
          task_idents (trace w') = [] ∧ (unclaimed c.2 → unclaimed w').
Proof.
  intros Hc.
  pose proof (exec_invariant self (λ c', starved c' ∧ (unclaimed c.2 → unclaimed c'.2))
                sched c) as Hinv.
  destruct Hinv as [(m' & Hm' & _ & _ & _ & _ & Ht & Hf) Hcl].
  - intros a c1 c2 [Hs Hk] Hstep. split; [by eapply starved_step|].
    intros Hu. eapply unclaimed_step; [done| |done]. by apply Hk.
  - by split.
  - destruct (exec self sched c) as [f' w']. simpl in *.
    destruct f' as [g acc| | | | | |]; try done.
    destruct g as [rest n|k| | | |]; try done; destruct acc; try done;
      eexists _, _; split_and!; done.
Qed.

Lemma starved_call self tasks m tr :
  debug_mode self = false → tasks ≠ [] →
  Forall (λ s, s = WSpawned) (workers m) → result_queue m = [] → closed m = false →
  gpu_queue m = [] ∨ init_fails (pool_init_fn m) →
  task_idents tr = [] →
  starved (collect (__call__ self tasks), World (Some m) tr).
Proof.
  intros Hd Hts Hws Hrq Hcl Hq Htr. rewrite collect_async by done.
  exists m. simpl. split_and!; try done. destruct tasks; [done|simpl; lia].
Qed.

(** X7 (a failing [init_fn] starves the pool).  When [init_fn] fails for
    every identity, construction with [n_gpu = D >= 1] and
    [n_workers_per_gpu = W >= 1] still returns the instance; but a process
    whose initializer fails never gets ready, so that a dispatch of at least
    one task never returns: under every schedule, however long, the
    coordinator is still inside the call, has received no result, and no
    task was called. *)
Theorem failing_init_fn_starves D W f rg pb ign tasks sched :
  (1 ≤ D)%Z → (1 ≤ W)%Z → (∀ w g, ∃ e, f w g = Raise e) → tasks ≠ [] →
  let self := instance D W (Some f) rg pb ign in
  __init__ D W (Some f) rg pb ign = (Ret self, pool_world D W (Some f)) ∧
  ∃ g w', exec self sched (collect (__call__ self tasks), pool_world D W (Some f))
          = (FComp g [], w') ∧
          g ≠ GDone ∧ task_idents (trace w') = [].
Proof.
  intros HD HW Hf Hts self.
  assert (self = Self false D W rg pb ign) as Hself.
  { unfold self, instance. by destruct (Z.eqb_spec D 0); [lia|]. }
  split; [rewrite Hself; by apply init_async|].
  destruct (starved_exec self sched (collect (__call__ self tasks), pool_world D W (Some f)))
    as (g & w' & Hex & Hg & Ht & _).
  - apply starved_call; try done; [by rewrite Hself|by apply Forall_replicate_intro|].
    right. by exists f.
  - by exists g, w'.
Qed.

Lemma failing_init_fn_starves_witness :
  let f : initfn := λ _ _, Raise (Exc "RuntimeError") in
  let self := instance 1 2 (Some f) false true true in
  __init__ 1 2 (Some f) false true true = (Ret self, pool_world 1 2 (Some f)) ∧
  ∃ g w', exec self (seq 0 40) (collect (__call__ self [task_identity]), pool_world 1 2 (Some f))
          = (FComp g [], w') ∧
          g ≠ GDone ∧ task_idents (trace w') = [].
Proof.
  intros f self.
  apply (failing_init_fn_starves 1 2 f false true true [task_identity] (seq 0 40));
    [lia|lia| |done].
  intros w g. by eexists.
Defined.

Lemma fill_gpu_queue_nonpositive D W : (D ≤ 0)%Z → fill_gpu_queue D W = [].
Proof. intros HD. unfold fill_gpu_queue, range. by rewrite (seqZ_nil 0 D) by lia. Qed.

(** X8 (negative counts).  [__init__] checks neither count.  With
    [n_gpu < 0] and [n_workers_per_gpu < 0] the product is positive: the
    loops put nothing on the identity queue, the pool is created with
    [n_gpu * n_workers_per_gpu] processes, and the instance is returned.
    Every process then waits for an identity that never comes: a dispatch of
    at least one task never returns, under any schedule, no identity is
    claimed and no task is called. *)
Theorem negative_counts_starve D W o rg pb ign tasks sched :
  (D < 0)%Z → (W < 0)%Z → tasks ≠ [] →
  let self := Self false D W rg pb ign in
  let w0 := World (Some (MP o [] [] [] (replicate (Z.to_nat (D * W)) WSpawned) false))
                  [EvPoolCreate (D * W)] in
  __init__ D W o rg pb ign = (Ret self, w0) ∧
  0 < n_processes w0 ∧
  ∃ g w', exec self sched (collect (__call__ self tasks), w0) = (FComp g [], w') ∧
          g ≠ GDone ∧ claimed (trace w') = [] ∧ task_idents (trace w') = [].
Proof.
  intros HD HW Hts self w0. split_and!.
  - unfold __init__. simpl.
    destruct (Z.eqb_spec D 0) as [->|_]; [lia|]. simpl.
    destruct (Z.ltb_spec (D * W) 1) as [Hlt|_]; [nia|].
    by rewrite fill_gpu_queue_nonpositive by lia.
  - unfold w0, n_processes. cbn [mp workers]. rewrite length_replicate. nia.
  - destruct (starved_exec self sched (collect (__call__ self tasks), w0))
      as (g & w' & Hex & Hg & Ht & Hu).
    + apply starved_call; try done; [by apply Forall_replicate_intro|by left].
    + exists g, w'. split_and!; try done.
      destruct Hu as (m' & _ & _ & Hc); [|done]. by eexists.
Qed.

Lemma negative_counts_starve_witness :
  let self := Self false (-1) (-2) false true true in
  let w0 := World (Some (MP None [] [] [] (replicate (Z.to_nat (-1 * -2)) WSpawned) false))
                  [EvPoolCreate (-1 * -2)] in
  __init__ (-1) (-2) None false true true = (Ret self, w0) ∧
  0 < n_processes w0 ∧
  ∃ g w', exec self (seq 0 40) (collect (__call__ self [task_identity]), w0)
          = (FComp g [], w') ∧
          g ≠ GDone ∧ claimed (trace w') = [] ∧ task_idents (trace w') = [].
Proof.
  apply (negative_counts_starve (-1) (-2) None false true true [task_identity] (seq 0 40));
    [lia|lia|done].
Defined.

(** ** One process: results in submission order *)

Lemma in_order_step self N a b expected act c c' :
  dispatch_inv N c → in_order a b expected c → step self act c = Some c' →
  in_order a b expected c'.
Proof.
  destruct c as [f w], c' as [f' w']. simpl.
  intros (m & Hm & Hsv & Hf) (m0 & Hm0 & Hsole & Heq) Hstep. simpl in *.
  assert (m0 = m) as -> by congruence. clear Hm0.
  pose proof (sv_open _ Hsv) as Hopen.
  destruct act as [|i]; simpl in *.
  - destruct f as [g acc|l g| | | | |]; try done.
    unfold main_step, resume in Hstep. rewrite Hm in Hstep.
    destruct Hf as (Hg & _ & _).
    destruct g as [[|t rest] n|[|k]|k|ts|ts|]; simpl in *; try done.
    + simplify_eq. by exists m.
    + rewrite Hopen in Hstep. simplify_eq. eexists. split; [done|]. simpl.
      split; [done|]. rewrite fmap_app, <- app_assoc. done.
    + simplify_eq. by exists m.
    + destruct (result_queue m) as [|v q] eqn:Hrq; [done|]. simplify_eq.
      eexists. split; [done|]. simpl. split; [done|]. by rewrite <- app_assoc.
    + simplify_eq. by exists m.
  - revert Heq. destruct (worker_step i w) as [w1|] eqn:Hw; simplify_eq/=.
    destruct w as [ow tr]. simpl in *. subst ow. apply worker_step_trans in Hw.
    unfold sole in Hsole.
    destruct (workers m) as [|s [|s2 ws]] eqn:Hws;
      [done| |by destruct s].
    assert (∀ x, [s] !! i = Some x → i = 0 ∧ x = s) as Hone.
    { intros x Hx. destruct i as [|i]; simpl in Hx; [by simplify_eq|done]. }
    inversion Hw as [? ? a' b' q evs s' Hi Hgq He|? ? a' b' j q Hi Hj|? ? a' b' Hi Hj Hc
                    |? ? a' b' j vs evs s' Hi He]; subst; intros Heq;
      rewrite Hws in Hi; apply Hone in Hi as [-> <-];
      (eexists; split; [done|]); unfold sole; simpl; rewrite Hws; simpl.
    + rewrite Hgq in Hsole. simpl in Hsole. simplify_eq.
      pose proof (ok_init _ (sv_ok _ Hsv)) as Hinit.
      unfold init_effect, init_succeeds in *.
      destruct (pool_init_fn m) as [fi|]; [rewrite Hinit in He|]; by simplify_eq.
    + destruct Hsole as [-> ->]. split; [done|]. rewrite Hj in Heq. done.
    + congruence.
    + destruct Hsole as [-> ->].
      pose proof (proj1 (Forall_forall _ _) (ok_busy _ (sv_ok _ Hsv)) (WBusy a b j)) as Hb.
      rewrite Hws in Hb. specialize (Hb ltac:(by left) a b). simpl in Hb.
      assert (vs = [published (job_func j) a b] ∧ s' = WReady a b) as [-> ->].
      { unfold run_effect in He. unfold published.
        destruct (job_func j a b) as [v|e]; [|rewrite Hb in He]; by simplify_eq. }
      split; [done|]. simpl. by rewrite <- app_assoc.
Qed.

(** X9 (one process keeps the order).  On a serving pool with a single
    process and nothing published, queued or running, a dispatch of tasks
    that return or fail with an instance of [Exception] returns, under every
    schedule, the slots of the tasks in the order of the tasks: the value a
    task returns when called with the identity of the process, [None] where
    it fails. *)
Theorem single_worker_in_order self tasks w m a b sched :
  debug_mode self = false → mp w = Some m → serving m → clean m → sole a b m →
  Forall catchable tasks →
  mu (collect (__call__ self tasks), w) ≤ length sched →
  ∃ w', exec self sched (collect (__call__ self tasks), w) =
        (FList ((λ t, published t a b) <$> tasks) GDone, w').
Proof.
  intros Hd Hm Hsv (Hrq & Hiq & Hbusy) Hsole Hts Hmu.
  rewrite collect_async in * by done.
  pose proof (exec_quiescent self sched _ Hmu) as Hq.
  pose proof (exec_invariant self
                (λ c, dispatch_inv (length tasks) c ∧
                      in_order a b ((λ t, published t a b) <$> tasks) c)
                sched (consume (_call_async self tasks), w)) as Hinv.
  destruct Hinv as [Hdi Hio].
  - intros act c c' [H1 H2] Hs.
    split; [by eapply dispatch_inv_step|by eapply in_order_step].
  - split.
    + exists m. simpl. split_and!; try done; lia.
    + exists m. simpl. split_and!; try done. rewrite Hrq, Hiq. simpl.
      unfold sole in Hsole.
      destruct (workers m) as [|[] [|]]; simpl in *; done.
  - destruct (dispatch_inv_quiescent _ _ _ Hdi Hq) as (l & Hl & Hlen).
    destruct (exec self sched _) as [f w']. simpl in *. subst f.
    exists w'. do 2 f_equal.
    destruct Hio as (m' & _ & _ & Heq). simpl in Heq.
    rewrite <- (app_nil_r (_ <$> tasks)) in Heq.
    apply app_inj_1 in Heq as [-> _]; [done|]. by rewrite length_fmap.
Qed.

Lemma single_worker_in_order_witness :
  let self := instance 1 1 None false true true in
  let tasks := [task_identity; task_failing; task_none] in
  ∃ w', exec self (seq 0 60) (collect (__call__ self tasks), pool_world 1 1 None) =
        (FList ((λ t, published t 0 0) <$> tasks) GDone, w').
Proof.
  intros self tasks.
  eapply (single_worker_in_order self tasks (pool_world 1 1 None) _ 0 0 (seq 0 60)).
  - reflexivity.
  - reflexivity.
  - apply init_serving; [lia|lia|exact I].
  - by split_and!.
  - reflexivity.
  - repeat constructor.
  - vm_compute. lia.
Defined.

(** ** The progress bar *)

Lemma pbar_app tr1 tr2 : pbar (tr1 ++ tr2) = pbar tr1 ++ pbar tr2.
Proof. apply List.filter_app. Qed.

Lemma pbar_when (b : bool) evs : Forall (λ ev, is_pbar ev = true) evs → pbar (when b evs) = when b evs.
Proof.
  destruct b; simpl; [|done]. induction 1 as [|ev evs Hev _ IH]; [done|].
  unfold pbar in *. simpl. by rewrite Hev, IH.
Qed.

Lemma worker_step_pbar i w w' :
  worker_step i w = Some w' → pbar (trace w') = pbar (trace w).
Proof.
  destruct w as [[m|] tr]; [|done]. intros Hw. apply worker_step_trans in Hw.
  inversion Hw as [? ? a b q evs s' Hi Hg He|? ? a b j q Hi Hj|? ? a b Hi Hj Hc
                  |? ? a b j vs evs s' Hi He]; subst; simpl; try done.
  - rewrite pbar_app. unfold init_effect in He.
    destruct (pool_init_fn m) as [f|]; [destruct (f a b)|]; simplify_eq;
      by rewrite app_nil_r.
  - rewrite pbar_app. unfold run_effect in He.
    destruct (job_func j a b) as [v|e]; [|destruct (is_Exception e)]; simplify_eq;
      by rewrite app_nil_r.
Qed.

Lemma pbar_inv_step self base N a c c' :
  pbar_inv self base N c → step self a c = Some c' → pbar_inv self base N c'.
Proof.
  destruct c as [f w], c' as [f' w']. unfold pbar_inv. simpl. intros Hinv Hstep.
  destruct a as [|i]; simpl in *.
  - destruct f as [g acc|l g| |e g| | |]; try done.
    unfold main_step, resume in Hstep.
    destruct g as [[|t rest] n|[|k]|k|ts|ts|]; simpl in *; try done.
    + destruct Hinv as (-> & <- & <-). simplify_eq. simpl.
      split; [lia|]. rewrite !pbar_app, Nat.add_0_r. simpl.
      by rewrite pbar_when by repeat constructor.
    + destruct Hinv as (-> & <- & <-).
      destruct (mp w) as [m|]; [destruct (closed m)|]; simplify_eq; simpl; try done.
    + destruct Hinv as [Hlen Hp]. simplify_eq. simpl. rewrite Nat.add_0_r in *.
      split; [done|]. rewrite !pbar_app, Hp, <- app_assoc. f_equal.
      rewrite pbar_when by repeat constructor.
      by destruct (progressbar self).
    + destruct Hinv as [Hlen Hp].
      destruct (mp w) as [m|]; [|by simplify_eq].
      destruct (result_queue m) as [|v q]; simplify_eq. simpl.
      rewrite length_app. simpl. split; [lia|]. by exists acc, v.
    + destruct Hinv as (Hlen & acc0 & v & -> & Hp). simplify_eq. simpl.
      split; [done|]. rewrite pbar_app, Hp, <- app_assoc. f_equal.
      rewrite pbar_when by repeat constructor.
      rewrite length_app. simpl. rewrite Nat.add_1_r, replicate_S_end.
      by destruct (progressbar self).
  - destruct (worker_step i w) as [w1|] eqn:Hw; simplify_eq/=.
    apply worker_step_pbar in Hw. rewrite Hw. done.
Qed.

(** X10 (the progress bar).  Whenever an async dispatch of [N] tasks returns
    a list, whatever the pool, the tasks and the schedule, the list has [N]
    elements; and with [progressbar] the bar was opened once with total [N],
    updated [N] times, once after each result, and closed, in this order;
    without [progressbar] the bar was not touched. *)
Theorem progress_bar_counts self tasks w sched l g w' :
  debug_mode self = false →
  exec self sched (collect (__call__ self tasks), w) = (FList l g, w') →
  length l = length tasks ∧
  pbar (trace w') =
  pbar (trace w) ++
  when (progressbar self)
       (EvPbarOpen (length tasks) :: replicate (length tasks) EvPbarUpdate ++ [EvPbarClose]).
Proof.
  intros Hd Hex. rewrite collect_async in Hex by done.
  pose proof (exec_invariant self (pbar_inv self (pbar (trace w)) (length tasks)) sched
                (consume (_call_async self tasks), w)) as Hinv.
  rewrite Hex in Hinv. apply Hinv.
  - intros a c c'. apply pbar_inv_step.
  - unfold pbar_inv. simpl. done.
Qed.

Lemma progress_bar_counts_witness :
  let self := instance 1 1 None false true true in
  let tasks := [task_identity; task_failing] in
  ∃ l g w',
    exec self (seq 0 60) (collect (__call__ self tasks), pool_world 1 1 None) = (FList l g, w') ∧
    length l = length tasks ∧
    pbar (trace w') =
    pbar (trace (pool_world 1 1 None)) ++
    when (progressbar self)
         (EvPbarOpen (length tasks) :: replicate (length tasks) EvPbarUpdate ++ [EvPbarClose]).
Proof.
  intros self tasks.
  assert (∃ l g w', exec self (seq 0 60) (collect (__call__ self tasks), pool_world 1 1 None)
                    = (FList l g, w')) as (l & g & w' & Hex).
  { eexists _, _, _. vm_compute. reflexivity. }
  exists l, g, w'. split; [exact Hex|].
  apply (progress_bar_counts self tasks (pool_world 1 1 None) (seq 0 60) l g w');
    [reflexivity|exact Hex].
Defined.

(** ** The flags of the instance in async mode *)

Lemma resume_sim_flags self1 self2 g1 g2 w1 w2 :
  gen_sim g1 g2 → world_sim w1 w2 →
  match resume self1 g1 w1, resume self2 g2 w2 with
  | Some (g1', w1', sg1), Some (g2', w2', sg2) =>
      gen_sim g1' g2' ∧ world_sim w1' w2' ∧ sg1 = sg2
  | None, None => True
  | _, _ => False
  end.
Proof.
  intros Hg Hw. pose proof Hw as Hw0. unfold world_sim in Hw.
  destruct g1 as [r1 n1|k1|k1|ts1|r1|], g2 as [r2 n2|k2|k2|ts2|r2|];
    simpl in Hg; try done.
  - destruct Hg as [Hr ->]. destruct Hr as [|t1 t2 r1 r2 Ht Hr]; simpl; [done|].
    destruct (mp w1) as [m1|] eqn:H1, (mp w2) as [m2|] eqn:H2; try done.
    destruct Hw as (Ho & Hgq & Hrq & Hc & Hq & Hws). rewrite Hc.
    destruct (closed m2) eqn:Hcl; [done|].
    split_and!; try done. unfold world_sim, mp_sim. simpl. split_and!; try done.
    apply Forall2_app; [done|]. by repeat constructor.
  - subst k2. destruct k1 as [|k]; simpl; [done|].
    destruct (mp w1) as [m1|] eqn:H1, (mp w2) as [m2|] eqn:H2; try done.
    destruct Hw as (Ho & Hgq & Hrq & Hc & Hq & Hws). rewrite Hrq.
    destruct (result_queue m2) as [|v q]; [done|].
    split_and!; try done.
Qed.

Lemma step_sim_flags self1 self2 a c1 c2 :
  sim c1 c2 →
  match step self1 a c1, step self2 a c2 with
  | Some c1', Some c2' => sim c1' c2'
  | None, None => True
  | _, _ => False
  end.
Proof.
  destruct c1 as [f1 w1], c2 as [f2 w2]. intros [Hf Hw]. simpl in *.
  destruct a as [|i]; simpl.
  - destruct f1 as [g1 acc1|l1 g1| |e1 g1| | |], f2 as [g2 acc2|l2 g2| |e2 g2| | |];
      simpl in Hf; try done. destruct Hf as [Hg ->]. simpl.
    pose proof (resume_sim_flags self1 self2 g1 g2 w1 w2 Hg Hw) as Hr.
    destruct (resume self1 g1 w1) as [[[g1' w1'] sg1]|],
             (resume self2 g2 w2) as [[[g2' w2'] sg2]|]; try done.
    destruct Hr as (Hg' & Hw' & <-).
    destruct sg1 as [[v| |e]|]; by split.
  - pose proof (worker_step_sim i _ _ Hw) as Hs.
    destruct (worker_step i w1), (worker_step i w2); simpl; done.
Qed.

Lemma enabled_sim_flags self1 self2 c1 c2 :
  sim c1 c2 → enabled self1 c1 = enabled self2 c2.
Proof.
  intros Hsim. unfold enabled.
  assert (actors c1.2 = actors c2.2) as ->.
  { unfold actors, n_processes. destruct Hsim as [_ Hw]. unfold world_sim in Hw.
    destruct (mp c1.2) as [m1|], (mp c2.2) as [m2|]; try done.
    destruct Hw as (_ & _ & _ & _ & _ & Hws). by rewrite (Forall2_length _ _ _ Hws). }
  apply filter_ext. intros a. unfold can_step.
  pose proof (step_sim_flags self1 self2 a _ _ Hsim) as Hs.
  by destruct (step self1 a c1), (step self2 a c2).
Qed.

Lemma exec_sim_flags self1 self2 sched c1 c2 :
  sim c1 c2 → sim (exec self1 sched c1) (exec self2 sched c2).
Proof.
  revert c1 c2. induction sched as [|n sched IH]; intros c1 c2 Hsim; simpl; [done|].
  rewrite (enabled_sim_flags self1 self2 c1 c2 Hsim).
  destruct (enabled self2 c2 !! _) as [a|]; [|done].
  pose proof (step_sim_flags self1 self2 a _ _ Hsim) as Hs.
  destruct (step self1 a c1), (step self2 a c2); try done. by apply IH.
Qed.

(** X11 (the flags in async mode).  In async mode [ignore_errors],
    [progressbar] and [return_generator] change nothing in what a dispatch
    gives the caller: two instances on the same pool, given the same tasks
    under the same schedule, return the same list (the same drained stream
    in lazy mode), or raise the same exception.  In particular the
    exception [_run_task] raises again when [ignore_errors] is false never
    reaches the caller of [__call__]. *)
Theorem flags_do_not_change_results self1 self2 tasks w sched :
  debug_mode self1 = false → debug_mode self2 = false →
  (∀ l g w1,
     exec self1 sched (collect (__call__ self1 tasks), w) = (FList l g, w1) →
     ∃ w2, exec self2 sched (collect (__call__ self2 tasks), w) = (FList l g, w2)) ∧
  (∀ e g w1,
     exec self1 sched (collect (__call__ self1 tasks), w) = (FExc e g, w1) →
     ∃ w2, exec self2 sched (collect (__call__ self2 tasks), w) = (FExc e g, w2)).
Proof.
  intros Hd1 Hd2. rewrite !collect_async by done.
  pose proof (exec_sim_flags self1 self2 sched (consume (_call_async self1 tasks), w)
                (consume (_call_async self2 tasks), w)) as Hsim.
  pose proof (exec_drained self1 sched (consume (_call_async self1 tasks)) w I) as Hdr.
  destruct Hsim as [Hf _].
  { split; [|apply world_sim_refl]. simpl. split; [|done]. split; [|done].
    apply Forall_Forall2_diag, Forall_forall. by intros. }
  destruct (exec self1 sched (consume (_call_async self1 tasks), w)) as [f1 w1'].
  destruct (exec self2 sched (consume (_call_async self2 tasks), w)) as [f2 w2].
  simpl in Hf, Hdr.
  split; intros x g w1 Hex; simplify_eq; simpl in *; subst g.
  - destruct f2 as [|l2 g2| | | | |]; try done.
    destruct Hf as [<- Hg]. destruct g2; try done. by exists w2.
  - destruct f2 as [| | |e2 g2| | |]; try done.
    destruct Hf as [<- Hg]. destruct g2; try done. by exists w2.
Qed.

Lemma flags_do_not_change_results_witness :
  let strict := instance 1 2 None false false false in
  let lenient := instance 1 2 None true true true in
  let tasks := [task_identity; task_failing; task_none] in
  let w := pool_world 1 2 None in
  (∀ l g w1,
     exec strict (seq 0 60) (collect (__call__ strict tasks), w) = (FList l g, w1) →
     ∃ w2, exec lenient (seq 0 60) (collect (__call__ lenient tasks), w) = (FList l g, w2)) ∧
  (∀ e g w1,
     exec strict (seq 0 60) (collect (__call__ strict tasks), w) = (FExc e g, w1) →
     ∃ w2, exec lenient (seq 0 60) (collect (__call__ lenient tasks), w) = (FExc e g, w2)).
Proof.
  intros strict lenient tasks w.
  apply (flags_do_not_change_results strict lenient tasks w (seq 0 60)); reflexivity.
Defined.

(** ** Lazy mode *)

Lemma idle_worker_step i w w' :
  idle w → worker_step i w = Some w' →
  idle w' ∧ task_idents (trace w') = task_idents (trace w) ∧
  (result_queue <$> mp w') = (result_queue <$> mp w).
Proof.
  destruct w as [[m|] tr]; [|done]. unfold idle. simpl. intros [Hq Hb] Hw.
  apply worker_step_trans in Hw.
  inversion Hw as [? ? a b q evs s' Hi Hg He|? ? a b j q Hi Hj|? ? a b Hi Hj Hc
                  |? ? a b j vs evs s' Hi He]; subst; simpl.
  - pose proof (sum_list_with_insert busy _ _ _ s' Hi) as Hsum.
    rewrite (task_idents_app _ (_ :: _)). simpl.
    unfold init_effect in He.
    destruct (pool_init_fn m) as [f|]; [destruct (f a b)|]; simplify_eq; simpl in *;
      rewrite app_nil_r; split_and!; try done; lia.
  - congruence.
  - pose proof (sum_list_with_insert busy _ _ _ WExited Hi) as Hsum. simpl in Hsum.
    split_and!; try done. lia.
  - pose proof (sum_list_with_insert busy _ _ _ WSpawned Hi) as Hsum. simpl in Hsum. lia.
Qed.

(** X12 (a lazy call does nothing yet).  With [return_generator],
    [__call__] returns the generator before its body has run: until the
    caller iterates, under any schedule, no task of the call is submitted,
    no task is called and nothing is published; on an idle pool the
    processes can only initialise. *)
Theorem lazy_call_is_inert self tasks w sched :
  return_generator self = true → idle w →
  ∃ w', exec self sched (__call__ self tasks, w) = (__call__ self tasks, w') ∧
        idle w' ∧ task_idents (trace w') = task_idents (trace w) ∧
        (result_queue <$> mp w') = (result_queue <$> mp w).
Proof.
  intros Hrg Hidle.
  pose proof (exec_invariant self
                (λ c, c.1 = __call__ self tasks ∧ idle c.2 ∧
                      task_idents (trace c.2) = task_idents (trace w) ∧
                      (result_queue <$> mp c.2) = (result_queue <$> mp w))
                sched (__call__ self tasks, w)) as Hinv.
  destruct Hinv as (Hf & Hi & Ht & Hr).
  - intros a [f1 w1] [f2 w2] (Hf & Hi & Ht & Hr) Hstep. simpl in *. subst f1.
    destruct a as [|i]; simpl in Hstep.
    + unfold __call__ in Hstep. rewrite Hrg in Hstep. done.
    + destruct (worker_step i w1) as [w1'|] eqn:Hw; simplify_eq/=.
      destruct (idle_worker_step _ _ _ Hi Hw) as (Hi' & Ht' & Hr').
      split_and!; try done; congruence.
  - done.
  - destruct (exec self sched (__call__ self tasks, w)) as [f' w']. simpl in *.
    subst f'. by exists w'.
Qed.

Lemma lazy_call_is_inert_witness :
  let self := instance 1 2 None true true true in
  let w := pool_world 1 2 None in
  ∃ w', exec self (seq 0 20) (__call__ self [task_identity; task_none], w)
        = (__call__ self [task_identity; task_none], w') ∧
        idle w' ∧ task_idents (trace w') = task_idents (trace w) ∧
        (result_queue <$> mp w') = (result_queue <$> mp w).
Proof.
  intros self w.
  apply (lazy_call_is_inert self [task_identity; task_none] w (seq 0 20)).
  - reflexivity.
  - unfold idle, w, pool_world. simpl. done.
Defined.

(** ** Each task is called once *)

Lemma task_calls_app tr1 tr2 : task_calls (tr1 ++ tr2) = task_calls tr1 ++ task_calls tr2.
Proof. apply omap_app. Qed.

Lemma in_flight_insert ws i s s' :
  ws !! i = Some s →
  in_flight_one s ++ in_flight (<[i := s']> ws) ≡ₚ in_flight_one s' ++ in_flight ws.
Proof.
  unfold in_flight. revert i.
  induction ws as [|a ws IH]; intros [|i] Hi; simplify_eq/=.
  - apply Permutation_app_swap_app.
  - rewrite Permutation_app_swap_app, (IH _ Hi). apply Permutation_app_swap_app.
Qed.

Lemma in_flight_idle ws : sum_list_with busy ws = 0 → in_flight ws = [].
Proof.
  unfold in_flight. induction ws as [|[] ws IH]; simpl; intros; try done; auto.
Qed.

Lemma resume_task_calls self g w g' w' sg :
  async_gen g → resume self g w = Some (g', w', sg) →
  task_calls (trace w') = task_calls (trace w).
Proof.
  unfold resume. intros Hg H.
  destruct g as [[|t rest] n|[|k]|k|ts|ts|]; simpl in *; try done;
    repeat case_match; simplify_eq/=; try done;
    rewrite ?task_calls_app; destruct (progressbar self); simpl; by rewrite ?app_nil_r.
Qed.

Lemma once_inv_step self N before tasks a c c' :
  dispatch_inv N c → once_inv before tasks c → step self a c = Some c' →
  once_inv before tasks c'.
Proof.
  destruct c as [f w], c' as [f' w']. simpl.
  intros (m & Hm & Hsv & Hf) (m0 & calls & Hm0 & Hcalls & Hp1 & Hp2) Hstep. simpl in *.
  assert (m0 = m) as -> by congruence. clear Hm0.
  pose proof (sv_open _ Hsv) as Hopen.
  destruct a as [|i]; simpl in *.
  - destruct f as [g acc|l g| | | | |]; try done.
    destruct Hf as (Hg & _ & _).
    unfold main_step in Hstep.
    destruct (resume self g w) as [[[g1 w1] sg]|] eqn:Hr; [|done].
    pose proof (resume_task_calls _ _ _ _ _ _ Hg Hr) as Htc.
    unfold resume in Hr. rewrite Hm in Hr.
    destruct g as [[|t rest] n|[|k]|k|ts|ts|]; simpl in *; try done.
    + simplify_eq. exists m, calls. simpl in *. by rewrite Htc.
    + rewrite Hopen in Hr. simplify_eq. eexists _, calls. split; [done|]. simpl.
      split_and!; try done. by rewrite fmap_app, <- app_assoc.
    + simplify_eq. exists m, calls. simpl in *. by rewrite Htc.
    + destruct (result_queue m) as [|v q] eqn:Hrq; [done|]. simplify_eq.
      eexists _, calls. split; [done|]. simpl. split_and!; try done.
      by rewrite <- app_assoc.
    + simplify_eq. exists m, calls. simpl in *. by rewrite Htc.
  - destruct (worker_step i w) as [w1|] eqn:Hw; simplify_eq/=.
    destruct w as [ow tr]. simpl in *. subst ow. apply worker_step_trans in Hw.
    inversion Hw as [? ? a b q evs s' Hi Hgq He|? ? a b j q Hi Hj|? ? a b Hi Hj Hc
                    |? ? a b j vs evs s' Hi He]; subst.
    + pose proof (in_flight_insert _ _ _ s' Hi) as Hfl. simpl in Hfl.
      assert (task_calls evs = [] ∧ in_flight_one s' = []) as [Hte Hs'].
      { unfold init_effect in He.
        destruct (pool_init_fn m) as [fi|]; [destruct (fi a b)|]; by simplify_eq. }
      rewrite Hs' in Hfl. simpl in Hfl.
      eexists _, calls. split; [done|]. simpl.
      rewrite (task_calls_app _ (_ :: _)). simpl. rewrite Hte, app_nil_r, Hfl.
      by split_and!.
    + pose proof (in_flight_insert _ _ _ (WBusy a b j) Hi) as Hfl. simpl in Hfl.
      eexists _, calls. split; [done|]. simpl. rewrite Hfl.
      split_and!; try done. rewrite <- Hp1, Hj. simpl.
      apply Permutation_app_head. apply Permutation_middle.
    + congruence.
    + pose proof (in_flight_insert _ _ _ s' Hi) as Hfl. simpl in Hfl.
      pose proof (proj1 (Forall_forall _ _) (ok_busy _ (sv_ok _ Hsv)) _
                    (list_elem_of_lookup_2 _ _ _ Hi) a b) as Hb. simpl in Hb.
      assert (vs = [published (job_func j) a b] ∧ s' = WReady a b ∧
              task_calls evs = [(job_func j, (a, b))]) as (-> & -> & Hte).
      { unfold run_effect in He. unfold published.
        destruct (job_func j a b) as [v|e]; [|rewrite Hb in He]; by simplify_eq. }
      simpl in Hfl.
      eexists _, (calls ++ [(job_func j, (a, b))]). split; [done|]. simpl.
      rewrite task_calls_app, Hte, Hcalls, <- app_assoc, !fmap_app. simpl.
      split_and!; try done.
      * rewrite <- Hp1, <- Hfl, <- app_assoc. done.
      * rewrite app_assoc, Hp2. done.
Qed.

(** X13 (each task is called once).  On a serving pool with nothing
    published, queued or running, a dispatch of tasks that return or fail
    with an instance of [Exception] returns under every schedule; by then
    the pool has called each task of the dispatch exactly once, and the
    returned list holds, in some order, exactly the slots of these calls:
    what the task returned for the identity it was called with, [None]
    where it failed. *)
Theorem each_task_called_once self tasks w m sched :
  debug_mode self = false → mp w = Some m → serving m → clean m →
  Forall catchable tasks →
  mu (collect (__call__ self tasks), w) ≤ length sched →
  ∃ l w' calls,
    exec self sched (collect (__call__ self tasks), w) = (FList l GDone, w') ∧
    task_calls (trace w') = task_calls (trace w) ++ calls ∧
    fst <$> calls ≡ₚ tasks ∧
    l ≡ₚ slot_of <$> calls.
Proof.
  intros Hd Hm Hsv (Hrq & Hinq & Hbusy) Hts Hmu. rewrite collect_async in * by done.
  pose proof (exec_quiescent self sched _ Hmu) as Hq.
  pose proof (exec_invariant self
                (λ c, (dispatch_inv (length tasks) c ∧ balanced c) ∧
                      once_inv (task_calls (trace w)) tasks c)
                sched (consume (_call_async self tasks), w)) as Hinv.
  destruct Hinv as [[Hinv Hbal] Honce].
  - intros a c c' [[H1 H2] H3] Hs.
    split; [split; [by eapply dispatch_inv_step|by eapply balanced_step]|].
    by eapply once_inv_step.
  - split; [split|].
    + exists m. simpl. split_and!; try done. lia.
    + exists m. split; [done|]. unfold supply. rewrite Hrq, Hinq, Hbusy. done.
    + exists m, []. simpl. rewrite Hrq, Hinq, app_nil_r, in_flight_idle by done.
      by split_and!.
  - destruct (dispatch_inv_quiescent _ _ _ Hinv Hq) as (l & Hl & Hlen).
    destruct (exec self sched _) as [f w']. simpl in *. subst f.
    destruct Hbal as (m' & Hm' & Hsup).
    destruct Honce as (m'' & calls & Hm'' & Hcalls & Hp1 & Hp2). simpl in *.
    rewrite Hm' in Hm''. simplify_eq.
    unfold supply in Hsup.
    assert (result_queue m'' = []) as Hrq'.
    { destruct (result_queue m''); [done|simpl in Hsup; lia]. }
    assert (inqueue m'' = []) as Hinq'.
    { destruct (inqueue m''); [done|simpl in Hsup; lia]. }
    rewrite Hrq', Hinq', in_flight_idle, !app_nil_r in * by lia.
    by exists l, w', calls.
Qed.

Lemma each_task_called_once_witness :
  let self := instance 1 2 None false true true in
  let tasks := [task_identity; task_failing; task_none] in
  let w := pool_world 1 2 None in
  ∃ l w' calls,
    exec self (seq 0 60) (collect (__call__ self tasks), w) = (FList l GDone, w') ∧
    task_calls (trace w') = task_calls (trace w) ++ calls ∧
    fst <$> calls ≡ₚ tasks ∧
    l ≡ₚ slot_of <$> calls.
Proof.
  intros self tasks w.
  eapply (each_task_called_once self tasks w _ (seq 0 60)).
  - reflexivity.
  - reflexivity.
  - apply init_serving; [lia|lia|exact I].
  - by split_and!.
  - repeat constructor.
  - vm_compute. lia.
Defined.
